(** * A recursive-descent parser for a toy imperative language (parser.c)

    Shallow embedding of [parser.c] and the properties of its grammar rules.

    The C program keeps one global [currentToken], reads it in every grammar
    rule, and ends the process with [exit(1)] on the first syntax error.  It is
    modelled with explicit state passing: a [State] holds the global token, the
    input stream and what was printed so far, and every C function becomes a
    function from [State] to a [result].  The two [while] loops take a bound on
    their number of iterations. *)

From Stdlib Require Import String Ascii List ZArith Bool Lia.
From Stdlib Require Import DecimalString.
Import ListNotations.

Set Warnings "-register-all".

Local Open Scope string_scope.
Local Open Scope list_scope.

(** ** Data model *)

(** [#define MAX_TOKEN_LEN 100]: the size of the character arrays. *)
Definition MAX_TOKEN_LEN : nat := 100.

(** [typedef enum { TOKEN_INT, ... } TokenType;] *)
Inductive TokenType : Type :=
| TOKEN_INT | TOKEN_IDENTIFIER | TOKEN_NUMBER | TOKEN_ASSIGN
| TOKEN_PLUS | TOKEN_MINUS | TOKEN_IF | TOKEN_EQUAL
| TOKEN_LBRACE | TOKEN_RBRACE | TOKEN_SEMICOLON | TOKEN_EOF | TOKEN_UNKNOWN.

(** The integer value of each enumerator, as [printf("%d")] shows it. *)
Definition code (t : TokenType) : nat :=
  match t with
  | TOKEN_INT => 0 | TOKEN_IDENTIFIER => 1 | TOKEN_NUMBER => 2 | TOKEN_ASSIGN => 3
  | TOKEN_PLUS => 4 | TOKEN_MINUS => 5 | TOKEN_IF => 6 | TOKEN_EQUAL => 7
  | TOKEN_LBRACE => 8 | TOKEN_RBRACE => 9 | TOKEN_SEMICOLON => 10
  | TOKEN_EOF => 11 | TOKEN_UNKNOWN => 12
  end.

Definition all_kinds : list TokenType :=
  [TOKEN_INT; TOKEN_IDENTIFIER; TOKEN_NUMBER; TOKEN_ASSIGN; TOKEN_PLUS;
   TOKEN_MINUS; TOKEN_IF; TOKEN_EQUAL; TOKEN_LBRACE; TOKEN_RBRACE;
   TOKEN_SEMICOLON; TOKEN_EOF; TOKEN_UNKNOWN].

(** [a == b] on two enumerators. *)
Definition kind_eqb (a b : TokenType) : bool := Nat.eqb (code a) (code b).

(** [typedef struct { TokenType type; char text[MAX_TOKEN_LEN]; } Token;]
    The character array holds a NUL-terminated string. *)
Record Token : Type := mkToken { type : TokenType; text : string }.

(** [typedef struct Node { type; left; right; value } Node;]  A [NULL] child
    is [None].  Every node comes fresh from [malloc] and is reachable from one
    parent only, so the pointer structure is a tree. *)
Inductive Node : Type :=
  mkNode { node_type : TokenType;
           left : option Node;
           right : option Node;
           value : string }.

(** [node->left = l;] and [node->right = r;] *)
Definition set_left (node : Node) (l : option Node) : Node :=
  mkNode (node_type node) l (right node) (value node).
Definition set_right (node : Node) (r : option Node) : Node :=
  mkNode (node_type node) (left node) r (value node).

(** [FILE *file]: the characters of the input not read yet. *)
Definition FILE : Type := string.

(** What the functions of the program read and write: the global
    [currentToken], the stream behind [file], and standard output. *)
Record State : Type :=
  mkState { currentToken : Token; file : FILE; stdout : list string }.

(** How a call ends: it returns [a] in state [s]; the process has ended in
    [exit(status)] having printed [out]; an indeterminate pointer was
    dereferenced; or a loop used up its iteration bound. *)
Inductive result (A : Type) : Type :=
| Ok (a : A) (s : State)
| Exit (status : Z) (out : list string)
| Undefined
| OutOfFuel.
Arguments Ok {A} a s.
Arguments Exit {A} status out.
Arguments Undefined {A}.
Arguments OutOfFuel {A}.

Definition M (A : Type) : Type := State -> result A.

Definition ret {A} (a : A) : M A := fun s => Ok a s.

Definition bind {A B} (m : M A) (k : A -> M B) : M B :=
  fun s =>
    match m s with
    | Ok a s' => k a s'
    | Exit status out => Exit status out
    | Undefined => Undefined
    | OutOfFuel => OutOfFuel
    end.

Notation "x <- m ;; k" := (bind m (fun x => k))
  (at level 61, m at next level, right associativity).
Notation "m ;;; k" := (bind m (fun _ => k))
  (at level 61, right associativity).

(** [printf(line)] *)
Definition printf (line : string) : M unit :=
  fun s => Ok tt (mkState (currentToken s) (file s) (stdout s ++ [line])).

(** [exit(status)] *)
Definition exit {A} (status : Z) : M A :=
  fun s => Exit status (stdout s).

Definition newline : string := String (ascii_of_nat 10) EmptyString.

(** [%d] of an enumerator. *)
Definition decimal (n : nat) : string := NilZero.string_of_uint (Nat.to_uint n).

(** The text of [printf("Syntax error: expected token %d but got %d\n", ...)]. *)
Definition syntax_error_message (expected actual : TokenType) : string :=
  "Syntax error: expected token " ++ decimal (code expected)
  ++ " but got " ++ decimal (code actual) ++ newline.

Definition factor_error_message : string :=
  "Syntax error: expected a number or identifier" ++ newline.

(** The text of [printf("Parsed statement with root: %s\n", stmt->value)]. *)
Definition parsed_statement_message (root : string) : string :=
  "Parsed statement with root: " ++ root ++ newline.

(** [createNode]: a node of the token's kind and text, with no children. *)
Definition createNode (token : Token) : Node :=
  mkNode (type token) None None (text token).

(** ** The grammar rules

    The rules read the next token only through [getNextToken].  They are
    written once here over that function; the program's own [getNextToken]
    follows the section. *)
Module Rules.
Section WithTokenizer.

Variable getNextToken : M unit.

(** [void match(TokenType expected, FILE *file)] *)
Definition match_ (expected : TokenType) : M unit :=
  fun s =>
    if kind_eqb (type (currentToken s)) expected
    then getNextToken s
    else (printf (syntax_error_message expected (type (currentToken s))) ;;;
          exit 1) s.

(** [Node* parseFactor(FILE *file)] *)
Definition parseFactor : M Node :=
  fun s =>
    let node := createNode (currentToken s) in
    if kind_eqb (type (currentToken s)) TOKEN_NUMBER
       || kind_eqb (type (currentToken s)) TOKEN_IDENTIFIER
    then (match_ (type (currentToken s)) ;;; ret node) s
    else (printf factor_error_message ;;; exit 1) s.

(** The [while] loop of [parseExpression]; [node] is the tree built so far. *)
Fixpoint parseExpression_loop (fuel : nat) (node : Node) (s : State)
  : result Node :=
  if kind_eqb (type (currentToken s)) TOKEN_PLUS
     || kind_eqb (type (currentToken s)) TOKEN_MINUS
  then
    match fuel with
    | O => OutOfFuel
    | S fuel' =>
        (let operator := currentToken s in
         match_ (type (currentToken s)) ;;;
         let operatorNode := createNode operator in
         let operatorNode := set_left operatorNode (Some node) in
         rhs <- parseFactor ;;
         let operatorNode := set_right operatorNode (Some rhs) in
         parseExpression_loop fuel' operatorNode) s
    end
  else Ok node s.

(** [Node* parseExpression(FILE *file)] *)
Definition parseExpression (fuel : nat) : M Node :=
  node <- parseFactor ;;
  parseExpression_loop fuel node.

(** [Node* parseAssignment(FILE *file)] *)
Definition parseAssignment (fuel : nat) : M Node :=
  fun s =>
    (let node := createNode (currentToken s) in
     match_ TOKEN_IDENTIFIER ;;;
     match_ TOKEN_ASSIGN ;;;
     rhs <- parseExpression fuel ;;
     let node := set_right node (Some rhs) in
     match_ TOKEN_SEMICOLON ;;;
     ret node) s.

(** [Node* parseDeclaration(FILE *file)] *)
Definition parseDeclaration : M Node :=
  match_ TOKEN_INT ;;;
  (fun s =>
     (let node := createNode (currentToken s) in
      match_ TOKEN_IDENTIFIER ;;;
      match_ TOKEN_SEMICOLON ;;;
      ret node) s).

(** [Node* parseConditional(FILE *file)] *)
Definition parseConditional (fuel : nat) : M Node :=
  match_ TOKEN_IF ;;;
  match_ TOKEN_LBRACE ;;;
  (fun s =>
     (let node := createNode (currentToken s) in
      l <- parseExpression fuel ;;
      let node := set_left node (Some l) in
      match_ TOKEN_EQUAL ;;;
      r <- parseExpression fuel ;;
      let node := set_right node (Some r) in
      match_ TOKEN_RBRACE ;;;
      match_ TOKEN_LBRACE ;;;
      body <- parseAssignment fuel ;;
      let node := set_left node (Some body) in
      match_ TOKEN_RBRACE ;;;
      ret node) s).

(** The [if] / [else if] chain of [parseProgram].  [Node* stmt;] starts
    indeterminate ([None]) and stays so when no branch is taken. *)
Definition statement (fuel : nat) : M (option Node) :=
  fun s =>
    if kind_eqb (type (currentToken s)) TOKEN_INT then
      (stmt <- parseDeclaration ;; ret (Some stmt)) s
    else if kind_eqb (type (currentToken s)) TOKEN_IF then
      (stmt <- parseConditional fuel ;; ret (Some stmt)) s
    else if kind_eqb (type (currentToken s)) TOKEN_IDENTIFIER then
      (stmt <- parseAssignment fuel ;; ret (Some stmt)) s
    else Ok None s.

(** [printf("Parsed statement with root: %s\n", stmt->value)] *)
Definition report (stmt : option Node) : M unit :=
  match stmt with
  | Some node => printf (parsed_statement_message (value node))
  | None => fun _ => Undefined
  end.

(** The [while] loop of [parseProgram]. *)
Fixpoint parseProgram_loop (fuel_e fuel : nat) (s : State) : result unit :=
  if negb (kind_eqb (type (currentToken s)) TOKEN_EOF)
  then
    match fuel with
    | O => OutOfFuel
    | S fuel' =>
        (stmt <- statement fuel_e ;;
         report stmt ;;;
         parseProgram_loop fuel_e fuel') s
    end
  else Ok tt s.

(** [void parseProgram(FILE *file)] *)
Definition parseProgram (fuel : nat) : M unit :=
  getNextToken ;;;
  parseProgram_loop fuel fuel.

End WithTokenizer.
End Rules.

(** ** The program as written *)

(** [void getNextToken(FILE *file) { }]: the body is empty. *)
Definition getNextToken : M unit := fun s => Ok tt s.

Definition match_ : TokenType -> M unit := Rules.match_ getNextToken.
Definition parseFactor : M Node := Rules.parseFactor getNextToken.
Definition parseExpression : nat -> M Node := Rules.parseExpression getNextToken.
Definition parseAssignment : nat -> M Node := Rules.parseAssignment getNextToken.
Definition parseDeclaration : M Node := Rules.parseDeclaration getNextToken.
Definition parseConditional : nat -> M Node := Rules.parseConditional getNextToken.
Definition parseProgram : nat -> M unit := Rules.parseProgram getNextToken.

(** [Token currentToken;] has static storage: it starts zeroed, that is with
    kind [TOKEN_INT] (enumerator 0) and the empty text. *)
Definition initial_state (input : FILE) : State :=
  mkState (mkToken TOKEN_INT "") input [].

(** [int main()]: [input] is the content of [input.txt], [None] when it cannot
    be opened.  Returning [n] from [main] is ending with status [n]. *)
Definition main (fuel : nat) (input : option FILE) : result Z :=
  match input with
  | None => Exit 1 []
  | Some f => (parseProgram fuel ;;; ret 0%Z) (initial_state f)
  end.

(** ** A tokenizer to run the rules on text *)

(** The source has no tokenizer: the body of [getNextToken] is empty.  The
    one below follows the lexical rules of section 4.1 of the specification;
    it serves to run the code of the rules on text, and no property of the
    program as written rests on it. *)
Module Tokenizer.

Definition between (lo hi : nat) (c : ascii) : bool :=
  Nat.leb lo (nat_of_ascii c) && Nat.leb (nat_of_ascii c) hi.

Definition is_space (c : ascii) : bool :=
  between 9 13 c || Nat.eqb (nat_of_ascii c) 32.
Definition is_digit (c : ascii) : bool := between 48 57 c.
Definition is_letter (c : ascii) : bool := between 65 90 c || between 97 122 c.
Definition is_alnum (c : ascii) : bool := is_letter c || is_digit c.

Fixpoint skip_whitespace (s : string) : string :=
  match s with
  | String c rest => if is_space c then skip_whitespace rest else s
  | EmptyString => EmptyString
  end.

(** The longest prefix of [s] whose characters satisfy [p], and the rest. *)
Fixpoint span (p : ascii -> bool) (s : string) : string * string :=
  match s with
  | String c rest =>
      if p c then let (w, r) := span p rest in (String c w, r)
      else (EmptyString, s)
  | EmptyString => (EmptyString, EmptyString)
  end.

Definition word (w : string) : Token :=
  if String.eqb w "int" then mkToken TOKEN_INT ""
  else if String.eqb w "if" then mkToken TOKEN_IF ""
  else mkToken TOKEN_IDENTIFIER w.

Definition symbol (c : ascii) (rest : string) : Token * string :=
  if Ascii.eqb c "="%char then
    match rest with
    | String d rest' =>
        if Ascii.eqb d "="%char then (mkToken TOKEN_EQUAL "", rest')
        else (mkToken TOKEN_ASSIGN "", rest)
    | EmptyString => (mkToken TOKEN_ASSIGN "", rest)
    end
  else if Ascii.eqb c "+"%char then (mkToken TOKEN_PLUS "", rest)
  else if Ascii.eqb c "-"%char then (mkToken TOKEN_MINUS "", rest)
  else if Ascii.eqb c "{"%char then (mkToken TOKEN_LBRACE "", rest)
  else if Ascii.eqb c "}"%char then (mkToken TOKEN_RBRACE "", rest)
  else if Ascii.eqb c ";"%char then (mkToken TOKEN_SEMICOLON "", rest)
  else (mkToken TOKEN_UNKNOWN (String c EmptyString), rest).

(** Modelled from the spec: the lexical rules, of which the source has none
    ([getNextToken] has an empty body).  Whitespace is skipped; [int] and [if]
    are keywords, any other run of a letter followed by letters and digits is
    an identifier; a run of digits is a number; [==] is matched before [=];
    any other character is [Unknown]; the end of the input is [EndOfInput].
    Identifiers, numbers and unknown characters carry their lexeme, the fixed
    tokens an empty text.  [scan s] is the first token of [s] and the
    characters after it. *)
Definition scan (s : string) : Token * string :=
  match skip_whitespace s with
  | EmptyString => (mkToken TOKEN_EOF "", EmptyString)
  | String c rest =>
      if is_letter c then
        let (w, r) := span is_alnum (String c rest) in (word w, r)
      else if is_digit c then
        let (w, r) := span is_digit (String c rest) in (mkToken TOKEN_NUMBER w, r)
      else symbol c rest
  end.

(** Modelled from the spec: [nextToken], the working counterpart of the
    empty [getNextToken].  The next token becomes the current one; a lexeme
    that does not fit the buffer of [MAX_TOKEN_LEN] characters ends the
    parse. *)
Definition nextToken : M unit :=
  fun s =>
    let (token, rest) := scan (file s) in
    if Nat.leb MAX_TOKEN_LEN (String.length (text token))
    then exit 1 s
    else Ok tt (mkState token rest (stdout s)).

End Tokenizer.

(** A grammar rule run on [input] with this tokenizer in the place of
    [getNextToken], the first token read as [parseProgram] reads it. *)
Definition run {A} (rule : M unit -> M A) (input : FILE) : result A :=
  (Tokenizer.nextToken ;;; rule Tokenizer.nextToken) (initial_state input).

(** The trees the examples of the specification name. *)
Definition leaf (kind : TokenType) (lexeme : string) : Node :=
  mkNode kind None None lexeme.
Definition binary (kind : TokenType) (l r : Node) : Node :=
  mkNode kind (Some l) (Some r) "".

(** ** Shapes of trees *)

(** An operator node has both children, a number or identifier node has
    none; checked at the root and below every child. *)
Fixpoint well_formed (n : Node) : bool :=
  let ok (c : option Node) :=
    match c with Some m => well_formed m | None => true end in
  match node_type n with
  | TOKEN_PLUS | TOKEN_MINUS =>
      match left n, right n with
      | Some _, Some _ => true
      | _, _ => false
      end
  | TOKEN_NUMBER | TOKEN_IDENTIFIER =>
      match left n, right n with
      | None, None => true
      | _, _ => false
      end
  | _ => true
  end && ok (left n) && ok (right n).

(** A tree in which every right child has no children of its own: the shape
    of [((a + b) - c)]. *)
Fixpoint left_deep (n : Node) : bool :=
  match left n, right n with
  | None, None => true
  | Some l, Some r =>
      left_deep l &&
      match left r, right r with None, None => true | _, _ => false end
  | _, _ => false
  end.

(** [first op1 f1 op2 f2 ...] grouped to the left:
    [(((first op1 f1) op2 f2) ...)]. *)
Definition chain (first : Node) (rest : list (Token * Token)) : Node :=
  fold_left
    (fun acc p =>
       mkNode (type (fst p)) (Some acc) (Some (createNode (snd p)))
              (text (fst p)))
    rest first.

Definition is_operator (k : TokenType) : bool :=
  kind_eqb k TOKEN_PLUS || kind_eqb k TOKEN_MINUS.
Definition is_operand (k : TokenType) : bool :=
  kind_eqb k TOKEN_NUMBER || kind_eqb k TOKEN_IDENTIFIER.

(** The statements that a run of the loop of [parseProgram] parses, in the
    order it parses them; it takes the steps of [Rules.parseProgram_loop] and
    keeps each tree instead of dropping it. *)
Fixpoint parsed_statements (getNextToken : M unit) (fuel_e fuel : nat)
  (s : State) : result (list Node) :=
  if negb (kind_eqb (type (currentToken s)) TOKEN_EOF)
  then
    match fuel with
    | O => OutOfFuel
    | S fuel' =>
        (stmt <- Rules.statement getNextToken fuel_e ;;
         Rules.report stmt ;;;
         roots <- parsed_statements getNextToken fuel_e fuel' ;;
         ret (match stmt with Some n => n :: roots | None => roots end)) s
    end
  else Ok [] s.

(** The kinds that start a statement. *)
Definition starts_statement (k : TokenType) : bool :=
  kind_eqb k TOKEN_INT || kind_eqb k TOKEN_IF || kind_eqb k TOKEN_IDENTIFIER.

(** A computation is quiet when it prints nothing on the runs that return. *)
Definition quiet {A} (m : M A) : Prop :=
  forall s a s', m s = Ok a s' -> stdout s' = stdout s.

(** A computation keeps the state when every run that returns does so in the
    state it started in. *)
Definition keeps_state {A} (m : M A) : Prop :=
  forall s a s', m s = Ok a s' -> s' = s.

(** The state in which a second run starts: the global [currentToken] is what
    the first run, begun in [s], left in [s1]; the input is the same, read
    from its beginning. *)
Definition again (s s1 : State) : State :=
  mkState (currentToken s1) (file s) (stdout s).

(** The grammar rules of the program that return a node. *)
Definition rules (fuel : nat) : list (M Node) :=
  [parseFactor; parseExpression fuel; parseAssignment fuel;
   parseDeclaration; parseConditional fuel].

(** Every [+] or [-] node of a tree has both children. *)
Fixpoint operators_complete (n : Node) : bool :=
  let ok (c : option Node) :=
    match c with Some m => operators_complete m | None => true end in
  match node_type n with
  | TOKEN_PLUS | TOKEN_MINUS =>
      match left n, right n with
      | Some _, Some _ => true
      | _, _ => false
      end
  | _ => true
  end && ok (left n) && ok (right n).

(** A tokenizer that takes the next token from the input alone: what the
    global [currentToken] holds when it is called makes no difference. *)
Definition ignores_current_token (T : M unit) : Prop :=
  forall tok tok' f out, T (mkState tok f out) = T (mkState tok' f out).

(** A computation keeps the token when every run that returns leaves the
    global [currentToken] as it found it. *)
Definition keeps_token {A} (m : M A) : Prop :=
  forall s a s', m s = Ok a s' -> currentToken s' = currentToken s.

(** The token a node was made from: its kind and its text. *)
Definition token_of (n : Node) : Token := mkToken (node_type n) (value n).

(** The tokens of the nodes of a tree, left subtree first, then the node,
    then the right subtree. *)
Fixpoint inorder (n : Node) : list Token :=
  match left n with Some l => inorder l | None => [] end
  ++ token_of n
     :: match right n with Some r => inorder r | None => [] end.

(** The number of nodes of a tree. *)
Fixpoint size (n : Node) : nat :=
  S (match left n with Some l => size l | None => 0 end
     + match right n with Some r => size r | None => 0 end).

(** [consumed T k s]: the [k] tokens that are current, one after the other,
    when the tokenizer [T] is called [k] times from [s], and the state after
    the last call; [None] when one of the calls does not return. *)
Fixpoint consumed (T : M unit) (k : nat) (s : State)
  : option (list Token * State) :=
  match k with
  | O => Some ([], s)
  | S k' =>
      match T s with
      | Ok _ s1 =>
          match consumed T k' s1 with
          | Some (l, s2) => Some (currentToken s :: l, s2)
          | None => None
          end
      | _ => None
      end
  end.

(** The operators and operands of a chain, in the order of the source. *)
Definition chain_tokens (rest : list (Token * Token)) : list Token :=
  flat_map (fun p => [fst p; snd p]) rest.

(** The two lines that report a syntax error. *)
Definition error_line (line : string) : Prop :=
  line = factor_error_message
  \/ exists expected actual, line = syntax_error_message expected actual.

(** A computation fails once, under the tokenizer [T], when each of its runs
    that ends the process either does so with status 1, having printed one
    line, a syntax error, or is ended by a call of [T] that ends the process
    itself. *)
Definition fails_once (T : M unit) {A} (m : M A) : Prop :=
  forall s status out,
    m s = Exit status out ->
    (status = 1%Z
     /\ exists line, out = stdout s ++ [line] /\ error_line line)
    \/ (exists s_t, stdout s_t = stdout s /\ T s_t = Exit status out).

(** The statements that the loop of [parseProgram] parses and reports before
    it stops, for whatever reason: it takes the steps of
    [Rules.parseProgram_loop] and keeps the trees. *)
Fixpoint parsed_before_stop (T : M unit) (fuel_e fuel : nat) (s : State)
  : list Node :=
  if negb (kind_eqb (type (currentToken s)) TOKEN_EOF)
  then
    match fuel with
    | O => []
    | S fuel' =>
        match Rules.statement T fuel_e s with
        | Ok (Some n) s1 =>
            match Rules.report (Some n) s1 with
            | Ok _ s2 => n :: parsed_before_stop T fuel_e fuel' s2
            | _ => []
            end
        | _ => []
        end
    end
  else [].

(** The same for a run of [parseProgram], which first calls the tokenizer. *)
Definition parsed_by_program (T : M unit) (fuel : nat) (s : State)
  : list Node :=
  match T s with
  | Ok _ s0 => parsed_before_stop T fuel fuel s0
  | _ => []
  end.

(** ** Basic facts *)

Lemma kind_eqb_eq (a b : TokenType) : kind_eqb a b = true <-> a = b.
Proof.
  split.
  - destruct a, b; intros H; first [reflexivity | discriminate H].
  - intros ->. unfold kind_eqb. apply Nat.eqb_refl.
Qed.

Lemma kind_eqb_refl (a : TokenType) : kind_eqb a a = true.
Proof. apply kind_eqb_eq. reflexivity. Qed.

Lemma kind_eqb_neq (a b : TokenType) : kind_eqb a b = false <-> a <> b.
Proof.
  split.
  - intros H E. apply kind_eqb_eq in E. congruence.
  - intros H. destruct (kind_eqb a b) eqn:E; [|reflexivity].
    apply kind_eqb_eq in E. contradiction.
Qed.

Lemma bind_ok {A B} (m : M A) (k : A -> M B) (s s' : State) (a : A) :
  m s = Ok a s' -> bind m k s = k a s'.
Proof. intros H. unfold bind. rewrite H. reflexivity. Qed.

(** A call that ends the process ends every caller: nothing after it runs,
    and no value comes back. *)
Lemma bind_exit {A B} (m : M A) (k : A -> M B) (s : State) status out :
  m s = Exit status out -> bind m k s = Exit status out.
Proof. intros H. unfold bind. rewrite H. reflexivity. Qed.

Lemma bind_inv {A B} (m : M A) (k : A -> M B) (s s' : State) (b : B) :
  bind m k s = Ok b s' ->
  exists a s1, m s = Ok a s1 /\ k a s1 = Ok b s'.
Proof.
  unfold bind. destruct (m s) as [a s1| | |]; try discriminate.
  intros H. exists a, s1. split; [reflexivity | exact H].
Qed.

(** The texts of the messages. *)
Lemma syntax_error_message_text :
  syntax_error_message TOKEN_IDENTIFIER TOKEN_INT
  = ("Syntax error: expected token 1 but got 0" ++ newline)%string
  /\ syntax_error_message TOKEN_IDENTIFIER TOKEN_NUMBER
     = ("Syntax error: expected token 1 but got 2" ++ newline)%string
  /\ syntax_error_message TOKEN_ASSIGN TOKEN_IDENTIFIER
     = ("Syntax error: expected token 3 but got 1" ++ newline)%string
  /\ syntax_error_message TOKEN_LBRACE TOKEN_IF
     = ("Syntax error: expected token 8 but got 6" ++ newline)%string
  /\ syntax_error_message TOKEN_IF TOKEN_INT
     = ("Syntax error: expected token 6 but got 0" ++ newline)%string.
Proof. repeat split. Qed.

(** The message names both kinds: different kinds give different texts. *)
Lemma syntax_error_message_inj (e a e' a' : TokenType) :
  syntax_error_message e a = syntax_error_message e' a' -> e = e' /\ a = a'.
Proof.
  assert (H : forallb (fun e => forallb (fun a => forallb (fun e' =>
            forallb (fun a' =>
              implb (String.eqb (syntax_error_message e a)
                                (syntax_error_message e' a'))
                    (kind_eqb e e' && kind_eqb a a'))
            all_kinds) all_kinds) all_kinds) all_kinds = true)
    by (vm_compute; reflexivity).
  assert (all : forall k, In k all_kinds)
    by (intros k; destruct k; simpl; tauto).
  intros E.
  rewrite forallb_forall in H. specialize (H e (all e)).
  rewrite forallb_forall in H. specialize (H a (all a)).
  rewrite forallb_forall in H. specialize (H e' (all e')).
  rewrite forallb_forall in H. specialize (H a' (all a')).
  apply String.eqb_eq in E. rewrite E in H. simpl in H.
  apply andb_true_iff in H. destruct H as [H1 H2].
  apply kind_eqb_eq in H1. apply kind_eqb_eq in H2. split; assumption.
Qed.

(** ** The program as written: [getNextToken] does nothing *)

Lemma getNextToken_skip (s : State) : getNextToken s = Ok tt s.
Proof. reflexivity. Qed.

Lemma match_eq (expected : TokenType) (s : State) :
  match_ expected s
  = if kind_eqb (type (currentToken s)) expected
    then Ok tt s
    else Exit 1 (stdout s
                 ++ [syntax_error_message expected (type (currentToken s))]).
Proof.
  unfold match_, Rules.match_.
  destruct (kind_eqb (type (currentToken s)) expected); reflexivity.
Qed.

Lemma match_same (s : State) : match_ (type (currentToken s)) s = Ok tt s.
Proof. rewrite match_eq, kind_eqb_refl. reflexivity. Qed.

Lemma parseFactor_eq (s : State) :
  parseFactor s
  = if is_operand (type (currentToken s))
    then Ok (createNode (currentToken s)) s
    else Exit 1 (stdout s ++ [factor_error_message]).
Proof.
  unfold parseFactor, Rules.parseFactor, is_operand.
  destruct (kind_eqb (type (currentToken s)) TOKEN_NUMBER
            || kind_eqb (type (currentToken s)) TOKEN_IDENTIFIER);
    [|reflexivity].
  fold match_. unfold bind. rewrite match_same. reflexivity.
Qed.

Lemma operand_not_operator (k : TokenType) :
  is_operand k = true -> is_operator k = false.
Proof. destruct k; intros H; first [reflexivity | discriminate H]. Qed.

(** After a factor the current token is still that factor, so the loop of
    [parseExpression] is never entered. *)
Lemma parseExpression_eq (fuel : nat) (s : State) :
  parseExpression fuel s = parseFactor s.
Proof.
  unfold parseExpression, Rules.parseExpression. fold parseFactor.
  unfold bind. rewrite parseFactor_eq.
  destruct (is_operand (type (currentToken s))) eqn:E; [|reflexivity].
  apply operand_not_operator in E. unfold is_operator in E.
  destruct fuel; simpl; rewrite E; reflexivity.
Qed.

(** The second [match] of each statement rule meets the token that the first
    one accepted, so no statement rule returns. *)
Lemma parseDeclaration_eq (s : State) :
  parseDeclaration s
  = Exit 1 (stdout s
            ++ [if kind_eqb (type (currentToken s)) TOKEN_INT
                then syntax_error_message TOKEN_IDENTIFIER TOKEN_INT
                else syntax_error_message TOKEN_INT (type (currentToken s))]).
Proof.
  unfold parseDeclaration, Rules.parseDeclaration. fold match_.
  unfold bind. rewrite match_eq.
  destruct (kind_eqb (type (currentToken s)) TOKEN_INT) eqn:E; [|reflexivity].
  rewrite match_eq. apply kind_eqb_eq in E. rewrite E. reflexivity.
Qed.

Lemma parseAssignment_eq (fuel : nat) (s : State) :
  parseAssignment fuel s
  = Exit 1 (stdout s
            ++ [if kind_eqb (type (currentToken s)) TOKEN_IDENTIFIER
                then syntax_error_message TOKEN_ASSIGN TOKEN_IDENTIFIER
                else syntax_error_message TOKEN_IDENTIFIER
                                          (type (currentToken s))]).
Proof.
  unfold parseAssignment, Rules.parseAssignment. fold match_.
  unfold bind. rewrite match_eq.
  destruct (kind_eqb (type (currentToken s)) TOKEN_IDENTIFIER) eqn:E;
    [|reflexivity].
  rewrite match_eq. apply kind_eqb_eq in E. rewrite E. reflexivity.
Qed.

Lemma parseConditional_eq (fuel : nat) (s : State) :
  parseConditional fuel s
  = Exit 1 (stdout s
            ++ [if kind_eqb (type (currentToken s)) TOKEN_IF
                then syntax_error_message TOKEN_LBRACE TOKEN_IF
                else syntax_error_message TOKEN_IF (type (currentToken s))]).
Proof.
  unfold parseConditional, Rules.parseConditional. fold match_.
  unfold bind. rewrite match_eq.
  destruct (kind_eqb (type (currentToken s)) TOKEN_IF) eqn:E; [|reflexivity].
  rewrite match_eq. apply kind_eqb_eq in E. rewrite E. reflexivity.
Qed.

(** What [parseProgram] does, by the kind of the current token. *)
Lemma parseProgram_eq (fuel : nat) (s : State) :
  parseProgram (S fuel) s
  = match type (currentToken s) with
    | TOKEN_EOF => Ok tt s
    | TOKEN_INT =>
        Exit 1 (stdout s ++ [syntax_error_message TOKEN_IDENTIFIER TOKEN_INT])
    | TOKEN_IF =>
        Exit 1 (stdout s ++ [syntax_error_message TOKEN_LBRACE TOKEN_IF])
    | TOKEN_IDENTIFIER =>
        Exit 1 (stdout s
                ++ [syntax_error_message TOKEN_ASSIGN TOKEN_IDENTIFIER])
    | _ => Undefined
    end.
Proof.
  unfold parseProgram, Rules.parseProgram.
  rewrite (bind_ok _ _ s s tt (getNextToken_skip s)).
  cbn [Rules.parseProgram_loop]. unfold bind, Rules.statement.
  fold parseDeclaration. fold (parseConditional (S fuel)).
  fold (parseAssignment (S fuel)).
  destruct (type (currentToken s)) eqn:E; cbn [kind_eqb code Nat.eqb negb];
    try reflexivity.
  - unfold bind. rewrite parseDeclaration_eq, E. reflexivity.
  - unfold bind. rewrite parseAssignment_eq, E. reflexivity.
  - unfold bind. rewrite parseConditional_eq, E. reflexivity.
Qed.

Lemma parseProgram_ok_inv (fuel : nat) (s s' : State) :
  parseProgram fuel s = Ok tt s' ->
  type (currentToken s) = TOKEN_EOF /\ s' = s.
Proof.
  destruct fuel as [|fuel].
  - unfold parseProgram, Rules.parseProgram.
    rewrite (bind_ok _ _ s s tt (getNextToken_skip s)).
    cbn [Rules.parseProgram_loop].
    destruct (kind_eqb (type (currentToken s)) TOKEN_EOF) eqn:E;
      cbn [negb]; [|discriminate].
    intros H. apply kind_eqb_eq in E. split; [exact E | congruence].
  - rewrite parseProgram_eq.
    destruct (type (currentToken s)); try discriminate.
    intros H. split; [reflexivity | congruence].
Qed.

Lemma parseProgram_at_eof (fuel : nat) (s : State) :
  type (currentToken s) = TOKEN_EOF -> parseProgram fuel s = Ok tt s.
Proof.
  intros E. destruct fuel as [|fuel].
  - unfold parseProgram, Rules.parseProgram.
    rewrite (bind_ok _ _ s s tt (getNextToken_skip s)).
    cbn [Rules.parseProgram_loop]. rewrite E. reflexivity.
  - rewrite parseProgram_eq, E. reflexivity.
Qed.

(** Whatever [input.txt] holds, the program prints the same line and ends
    with status 1. *)
Lemma main_eq (fuel : nat) (input : FILE) :
  main (S fuel) (Some input)
  = Exit 1 [syntax_error_message TOKEN_IDENTIFIER TOKEN_INT].
Proof.
  unfold main, bind. rewrite parseProgram_eq. reflexivity.
Qed.

(** ** The rules over any tokenizer

    What the code of the rules does with the tokens it is given, whichever
    function stands for [getNextToken]. *)
Section AnyTokenizer.

Variable T : M unit.

Lemma Rules_match_same (expected : TokenType) (s : State) :
  type (currentToken s) = expected -> Rules.match_ T expected s = T s.
Proof.
  intros E. unfold Rules.match_. rewrite E, kind_eqb_refl. reflexivity.
Qed.

(** On a mismatch [match] prints the expected and the actual kind and ends
    the process. *)
Lemma Rules_match_mismatch (expected : TokenType) (s : State) :
  type (currentToken s) <> expected ->
  Rules.match_ T expected s
  = Exit 1 (stdout s
            ++ [syntax_error_message expected (type (currentToken s))]).
Proof.
  intros E. apply kind_eqb_neq in E. unfold Rules.match_. rewrite E.
  reflexivity.
Qed.

Lemma Rules_match_ok_inv (expected : TokenType) (s s' : State) (u : unit) :
  Rules.match_ T expected s = Ok u s' ->
  type (currentToken s) = expected /\ T s = Ok u s'.
Proof.
  unfold Rules.match_.
  destruct (kind_eqb (type (currentToken s)) expected) eqn:E.
  - intros H. split; [apply kind_eqb_eq; exact E | exact H].
  - discriminate.
Qed.

Lemma Rules_parseFactor_ok_inv (s s' : State) (n : Node) :
  Rules.parseFactor T s = Ok n s' ->
  n = createNode (currentToken s)
  /\ is_operand (type (currentToken s)) = true
  /\ T s = Ok tt s'.
Proof.
  unfold Rules.parseFactor. fold (is_operand (type (currentToken s))).
  destruct (is_operand (type (currentToken s))) eqn:E; [|discriminate].
  intros H. apply bind_inv in H. destruct H as ([] & s1 & Hm & Hr).
  apply Rules_match_ok_inv in Hm. destruct Hm as [_ Hm].
  unfold ret in Hr. inversion Hr; subst. auto.
Qed.

(** One turn of the loop of [parseExpression]: the operator node takes the
    tree built so far as its left child and the next factor as its right
    child. *)
Lemma Rules_parseExpression_loop_inv (fuel : nat) :
  forall (node : Node) (s s' : State) (n : Node),
    Rules.parseExpression_loop T fuel node s = Ok n s' ->
    exists rest : list (Token * Token),
      n = chain node rest
      /\ Forall (fun p => is_operator (type (fst p)) = true
                          /\ is_operand (type (snd p)) = true) rest.
Proof.
  induction fuel as [|fuel IH]; intros node s s' n; cbn [Rules.parseExpression_loop];
    fold (is_operator (type (currentToken s)));
    destruct (is_operator (type (currentToken s))) eqn:Eop;
    try discriminate.
  - intros H. inversion H; subst. exists []. split; [reflexivity | constructor].
  - intros H. apply bind_inv in H. destruct H as ([] & s1 & Hm & H).
    apply bind_inv in H. destruct H as (rhs & s2 & Hf & H).
    apply Rules_parseFactor_ok_inv in Hf. destruct Hf as (-> & Hopd & _).
    apply IH in H. destruct H as (rest & -> & Hrest).
    exists ((currentToken s, currentToken s1) :: rest). split.
    + reflexivity.
    + constructor; [split; assumption | exact Hrest].
  - intros H. inversion H; subst. exists []. split; [reflexivity | constructor].
Qed.

(** [parseExpression] returns its factors and operators grouped to the left. *)
Lemma Rules_parseExpression_ok_inv (fuel : nat) (s s' : State) (n : Node) :
  Rules.parseExpression T fuel s = Ok n s' ->
  exists rest : list (Token * Token),
    n = chain (createNode (currentToken s)) rest
    /\ is_operand (type (currentToken s)) = true
    /\ Forall (fun p => is_operator (type (fst p)) = true
                        /\ is_operand (type (snd p)) = true) rest.
Proof.
  intros H. apply bind_inv in H. destruct H as (first & s1 & Hf & H).
  apply Rules_parseFactor_ok_inv in Hf. destruct Hf as (-> & Hopd & _).
  apply Rules_parseExpression_loop_inv in H. destruct H as (rest & -> & Hrest).
  exists rest. auto.
Qed.

End AnyTokenizer.

Lemma well_formed_createNode (t : Token) :
  is_operand (type t) = true -> well_formed (createNode t) = true.
Proof. destruct t as [k x]. destruct k; intros H; first [reflexivity | discriminate H]. Qed.

Lemma well_formed_chain (rest : list (Token * Token)) :
  forall first : Node,
    well_formed first = true ->
    Forall (fun p => is_operator (type (fst p)) = true
                     /\ is_operand (type (snd p)) = true) rest ->
    well_formed (chain first rest) = true.
Proof.
  induction rest as [|[op f] rest IH]; intros first Hfirst Hrest.
  - exact Hfirst.
  - inversion Hrest as [|? ? [Hop Hf] Hrest']; subst.
    unfold chain. cbn [fold_left]. apply IH; [|exact Hrest'].
    cbn [fst snd] in *. apply well_formed_createNode in Hf.
    destruct op as [k x]. cbn [type text] in *.
    destruct k; try discriminate Hop;
      cbn; cbn in Hf; rewrite Hfirst, Hf; reflexivity.
Qed.

Lemma left_deep_chain (rest : list (Token * Token)) :
  forall first : Node,
    left_deep first = true -> left_deep (chain first rest) = true.
Proof.
  induction rest as [|[op f] rest IH]; intros first Hfirst.
  - exact Hfirst.
  - unfold chain. cbn [fold_left]. apply IH.
    cbn. rewrite Hfirst. reflexivity.
Qed.

Lemma quiet_ret {A} (a : A) : quiet (ret a).
Proof. intros s a' s' H. inversion H; subst. reflexivity. Qed.

Lemma quiet_bind {A B} (m : M A) (k : A -> M B) :
  quiet m -> (forall a, quiet (k a)) -> quiet (bind m k).
Proof.
  intros Hm Hk s b s' H. apply bind_inv in H.
  destruct H as (a & s1 & H1 & H2).
  apply Hm in H1. apply Hk in H2. congruence.
Qed.

Section QuietTokenizer.

Variable T : M unit.
Hypothesis T_quiet : quiet T.

Lemma quiet_match (expected : TokenType) : quiet (Rules.match_ T expected).
Proof.
  intros s u s' H. apply Rules_match_ok_inv in H. destruct H as [_ H].
  exact (T_quiet _ _ _ H).
Qed.

Lemma quiet_parseFactor : quiet (Rules.parseFactor T).
Proof.
  intros s n s' H. apply Rules_parseFactor_ok_inv in H.
  destruct H as (_ & _ & H). exact (T_quiet _ _ _ H).
Qed.

Lemma quiet_parseExpression_loop (fuel : nat) :
  forall node, quiet (Rules.parseExpression_loop T fuel node).
Proof.
  induction fuel as [|fuel IH]; intros node s n s';
    cbn [Rules.parseExpression_loop];
    destruct (kind_eqb (type (currentToken s)) TOKEN_PLUS
              || kind_eqb (type (currentToken s)) TOKEN_MINUS);
    try discriminate; try (intros H; inversion H; subst; reflexivity).
  intros H. apply bind_inv in H. destruct H as ([] & s1 & Hm & H).
  apply bind_inv in H. destruct H as (rhs & s2 & Hf & H).
  apply quiet_match in Hm. apply quiet_parseFactor in Hf. apply IH in H.
  congruence.
Qed.

Lemma quiet_parseExpression (fuel : nat) : quiet (Rules.parseExpression T fuel).
Proof.
  apply quiet_bind; [apply quiet_parseFactor|].
  intros node. apply quiet_parseExpression_loop.
Qed.

Lemma quiet_parseAssignment (fuel : nat) : quiet (Rules.parseAssignment T fuel).
Proof.
  intros s n s' H. unfold Rules.parseAssignment in H.
  apply bind_inv in H. destruct H as ([] & s1 & H1 & H).
  apply bind_inv in H. destruct H as ([] & s2 & H2 & H).
  apply bind_inv in H. destruct H as (rhs & s3 & H3 & H).
  apply bind_inv in H. destruct H as ([] & s4 & H4 & H).
  apply quiet_match in H1, H2, H4. apply quiet_parseExpression in H3.
  apply quiet_ret in H. congruence.
Qed.

Lemma quiet_parseDeclaration : quiet (Rules.parseDeclaration T).
Proof.
  intros s n s' H. unfold Rules.parseDeclaration in H.
  apply bind_inv in H. destruct H as ([] & s1 & H1 & H).
  apply bind_inv in H. destruct H as ([] & s2 & H2 & H).
  apply bind_inv in H. destruct H as ([] & s3 & H3 & H).
  apply quiet_match in H1, H2, H3. apply quiet_ret in H. congruence.
Qed.

Lemma quiet_parseConditional (fuel : nat) :
  quiet (Rules.parseConditional T fuel).
Proof.
  intros s n s' H. unfold Rules.parseConditional in H.
  apply bind_inv in H. destruct H as ([] & s1 & H1 & H).
  apply bind_inv in H. destruct H as ([] & s2 & H2 & H).
  apply bind_inv in H. destruct H as (l & s3 & H3 & H).
  apply bind_inv in H. destruct H as ([] & s4 & H4 & H).
  apply bind_inv in H. destruct H as (r & s5 & H5 & H).
  apply bind_inv in H. destruct H as ([] & s6 & H6 & H).
  apply bind_inv in H. destruct H as ([] & s7 & H7 & H).
  apply bind_inv in H. destruct H as (body & s8 & H8 & H).
  apply bind_inv in H. destruct H as ([] & s9 & H9 & H).
  apply quiet_match in H1, H2, H4, H6, H7, H9.
  apply quiet_parseExpression in H3, H5. apply quiet_parseAssignment in H8.
  apply quiet_ret in H. congruence.
Qed.

Lemma quiet_statement (fuel : nat) : quiet (Rules.statement T fuel).
Proof.
  intros s stmt s'. unfold Rules.statement.
  destruct (kind_eqb (type (currentToken s)) TOKEN_INT).
  { apply quiet_bind; [apply quiet_parseDeclaration|]. intros ?.
    apply quiet_ret. }
  destruct (kind_eqb (type (currentToken s)) TOKEN_IF).
  { apply quiet_bind; [apply quiet_parseConditional|]. intros ?.
    apply quiet_ret. }
  destruct (kind_eqb (type (currentToken s)) TOKEN_IDENTIFIER).
  { apply quiet_bind; [apply quiet_parseAssignment|]. intros ?.
    apply quiet_ret. }
  intros H. inversion H; subst. reflexivity.
Qed.

(** The loop of [parseProgram] returns nothing but [tt]; of each statement it
    parses, it prints the value of the root and keeps no more. *)
Lemma parseProgram_loop_prints (fuel_e fuel : nat) :
  forall (s s' : State),
    Rules.parseProgram_loop T fuel_e fuel s = Ok tt s' ->
    exists roots : list Node,
      parsed_statements T fuel_e fuel s = Ok roots s'
      /\ stdout s'
         = stdout s
           ++ map (fun n => parsed_statement_message (value n)) roots.
Proof.
  induction fuel as [|fuel IH]; intros s s';
    cbn [Rules.parseProgram_loop parsed_statements];
    destruct (negb (kind_eqb (type (currentToken s)) TOKEN_EOF));
    try discriminate;
    try (intros H; inversion H; subst; exists []; split;
         [reflexivity | symmetry; apply app_nil_r]).
  intros H. apply bind_inv in H. destruct H as (stmt & s1 & Hs & H).
  apply bind_inv in H. destruct H as ([] & s2 & Hr & H).
  destruct stmt as [n|]; [|discriminate Hr].
  apply IH in H. destruct H as (roots & Hp & Hout).
  exists (n :: roots). split.
  - unfold bind. rewrite Hs, Hr, Hp. reflexivity.
  - apply quiet_statement in Hs. cbn [Rules.report] in Hr.
    unfold printf in Hr. inversion Hr; subst s2. cbn [stdout] in Hout.
    rewrite Hout, Hs, <- app_assoc. reflexivity.
Qed.

End QuietTokenizer.

Section StatementRules.

Variable T : M unit.

(** The loop of [parseProgram] on a token that starts no statement and is not
    the end of the input: no branch assigns [stmt], and [stmt->value] is
    read. *)
Lemma parseProgram_loop_unassigned (fuel_e fuel : nat) (s : State) :
  starts_statement (type (currentToken s)) = false ->
  type (currentToken s) <> TOKEN_EOF ->
  Rules.parseProgram_loop T fuel_e (S fuel) s = Undefined.
Proof.
  intros Hs He. apply kind_eqb_neq in He.
  cbn [Rules.parseProgram_loop]. rewrite He. cbn [negb].
  unfold starts_statement in Hs.
  apply orb_false_iff in Hs. destruct Hs as [Hs H3].
  apply orb_false_iff in Hs. destruct Hs as [H1 H2].
  unfold bind, Rules.statement. rewrite H1, H2, H3. reflexivity.
Qed.

Lemma Rules_parseAssignment_ok_inv (fuel : nat) (s s' : State) (n : Node) :
  Rules.parseAssignment T fuel s = Ok n s' ->
  exists (rhs : Node) (s1 s2 : State),
    type (currentToken s) = TOKEN_IDENTIFIER
    /\ Rules.parseExpression T fuel s1 = Ok rhs s2
    /\ n = mkNode TOKEN_IDENTIFIER None (Some rhs) (text (currentToken s)).
Proof.
  unfold Rules.parseAssignment. intros H.
  apply bind_inv in H. destruct H as ([] & s0 & Hm & H).
  apply Rules_match_ok_inv in Hm. destruct Hm as [Hk _].
  apply bind_inv in H. destruct H as ([] & s1 & _ & H).
  apply bind_inv in H. destruct H as (rhs & s2 & He & H).
  apply bind_inv in H. destruct H as ([] & s3 & _ & H).
  inversion H; subst. exists rhs, s1, s2.
  repeat split; [exact Hk | exact He |].
  unfold set_right, createNode. cbn. rewrite Hk. reflexivity.
Qed.

Lemma Rules_parseDeclaration_ok_inv (s s' : State) (n : Node) :
  Rules.parseDeclaration T s = Ok n s' ->
  exists s1 : State,
    type (currentToken s) = TOKEN_INT
    /\ T s = Ok tt s1
    /\ type (currentToken s1) = TOKEN_IDENTIFIER
    /\ n = createNode (currentToken s1).
Proof.
  unfold Rules.parseDeclaration. intros H.
  apply bind_inv in H. destruct H as ([] & s1 & Hm & H).
  apply Rules_match_ok_inv in Hm. destruct Hm as [Hk HT].
  apply bind_inv in H. destruct H as ([] & s2 & Hm2 & H).
  apply Rules_match_ok_inv in Hm2. destruct Hm2 as [Hk2 _].
  apply bind_inv in H. destruct H as ([] & s3 & _ & H).
  inversion H; subst. exists s1. auto.
Qed.

(** [parseConditional]: the node is made from the first token of the
    condition; its left child is first the left side of the comparison and is
    then replaced by the body, so the tree returned holds the body and the
    right side only. *)
Lemma Rules_parseConditional_ok_inv (fuel : nat) (s s' : State) (n : Node) :
  Rules.parseConditional T fuel s = Ok n s' ->
  exists (l r body : Node) (s2 s3 s4 s5 s7 s8 : State),
    Rules.parseExpression T fuel s2 = Ok l s3
    /\ Rules.parseExpression T fuel s4 = Ok r s5
    /\ Rules.parseAssignment T fuel s7 = Ok body s8
    /\ n = mkNode (type (currentToken s2)) (Some body) (Some r)
                  (text (currentToken s2)).
Proof.
  unfold Rules.parseConditional. intros H.
  apply bind_inv in H. destruct H as ([] & s1 & _ & H).
  apply bind_inv in H. destruct H as ([] & s2 & _ & H).
  apply bind_inv in H. destruct H as (l & s3 & Hl & H).
  apply bind_inv in H. destruct H as ([] & s4 & _ & H).
  apply bind_inv in H. destruct H as (r & s5 & Hr & H).
  apply bind_inv in H. destruct H as ([] & s6 & _ & H).
  apply bind_inv in H. destruct H as ([] & s7 & _ & H).
  apply bind_inv in H. destruct H as (body & s8 & Hb & H).
  apply bind_inv in H. destruct H as ([] & s9 & _ & H).
  inversion H; subst. exists l, r, body, s2, s3, s4, s5, s7, s8.
  repeat split; assumption.
Qed.

End StatementRules.

(** ** The rules run with the tokenizer of the specification

    With a tokenizer in the place of the empty [getNextToken], the code of the
    rules builds these trees. *)

Example run_parseDeclaration :
  run Rules.parseDeclaration "int x;"
  = Ok (leaf TOKEN_IDENTIFIER "x") (mkState (mkToken TOKEN_EOF "") "" []).
Proof. reflexivity. Qed.

Example run_parseAssignment :
  run (fun T => Rules.parseAssignment T 1) "x = 1 + 2;"
  = Ok (mkNode TOKEN_IDENTIFIER None
          (Some (binary TOKEN_PLUS (leaf TOKEN_NUMBER "1")
                                   (leaf TOKEN_NUMBER "2")))
          "x")
       (mkState (mkToken TOKEN_EOF "") "" []).
Proof. reflexivity. Qed.

Example run_parseExpression :
  run (fun T => Rules.parseExpression T 2) "a + b - c"
  = Ok (binary TOKEN_MINUS
          (binary TOKEN_PLUS (leaf TOKEN_IDENTIFIER "a")
                             (leaf TOKEN_IDENTIFIER "b"))
          (leaf TOKEN_IDENTIFIER "c"))
       (mkState (mkToken TOKEN_EOF "") "" []).
Proof. reflexivity. Qed.

Example run_parseDeclaration_number :
  run Rules.parseDeclaration "int 5;"
  = Exit 1 [syntax_error_message TOKEN_IDENTIFIER TOKEN_NUMBER].
Proof. reflexivity. Qed.

(** Even then the node of a conditional is not the one the specification
    describes: it is made from the first token of the condition ([a]), and the
    body has taken the place of the left side of the comparison, which is in
    the tree no more. *)
Example run_parseConditional :
  run (fun T => Rules.parseConditional T 1) "if { a == b } { x = 1; }"
  = Ok (mkNode TOKEN_IDENTIFIER
          (Some (mkNode TOKEN_IDENTIFIER None
                   (Some (leaf TOKEN_NUMBER "1")) "x"))
          (Some (leaf TOKEN_IDENTIFIER "b"))
          "a")
       (mkState (mkToken TOKEN_EOF "") "" []).
Proof. reflexivity. Qed.

Example run_parseProgram :
  Rules.parseProgram Tokenizer.nextToken 3
    (initial_state "int x; x = 1 + 2; if { a == b } { x = 1; }")
  = Ok tt (mkState (mkToken TOKEN_EOF "") ""
             [parsed_statement_message "x"; parsed_statement_message "x";
              parsed_statement_message "a"]).
Proof. reflexivity. Qed.

Example run_parseProgram_number :
  Rules.parseProgram Tokenizer.nextToken 1 (initial_state "5;") = Undefined.
Proof. reflexivity. Qed.

Example run_parseExpression_well_formed :
  well_formed
    (binary TOKEN_MINUS
       (binary TOKEN_PLUS (leaf TOKEN_IDENTIFIER "a")
                          (leaf TOKEN_IDENTIFIER "b"))
       (leaf TOKEN_IDENTIFIER "c")) = true.
Proof. reflexivity. Qed.

Lemma quiet_nextToken : quiet Tokenizer.nextToken.
Proof.
  intros s u s'. unfold Tokenizer.nextToken.
  destruct (Tokenizer.scan (file s)) as [token rest].
  destruct (Nat.leb MAX_TOKEN_LEN (String.length (text token)));
    [discriminate|].
  intros H. inversion H; subst. reflexivity.
Qed.

Lemma quiet_getNextToken : quiet getNextToken.
Proof. intros s u s' H. inversion H; subst. reflexivity. Qed.

Lemma well_formed_parseExpression (T : M unit) (fuel : nat) (s s' : State)
  (n : Node) :
  Rules.parseExpression T fuel s = Ok n s' -> well_formed n = true.
Proof.
  intros H. apply Rules_parseExpression_ok_inv in H.
  destruct H as (rest & -> & Hopd & Hrest).
  apply well_formed_chain; [apply well_formed_createNode; exact Hopd | exact Hrest].
Qed.

Lemma left_deep_parseExpression (T : M unit) (fuel : nat) (s s' : State)
  (n : Node) :
  Rules.parseExpression T fuel s = Ok n s' -> left_deep n = true.
Proof.
  intros H. apply Rules_parseExpression_ok_inv in H.
  destruct H as (rest & -> & _ & _).
  apply left_deep_chain. reflexivity.
Qed.

Lemma keeps_state_match (k : TokenType) : keeps_state (match_ k).
Proof.
  intros s u s'. rewrite match_eq.
  destruct (kind_eqb (type (currentToken s)) k); [|discriminate].
  intros H. inversion H; subst. reflexivity.
Qed.

Lemma keeps_state_parseFactor : keeps_state parseFactor.
Proof.
  intros s n s'. rewrite parseFactor_eq.
  destruct (is_operand (type (currentToken s))); [|discriminate].
  intros H. inversion H; subst. reflexivity.
Qed.

Lemma keeps_state_parseExpression (fuel : nat) :
  keeps_state (parseExpression fuel).
Proof.
  intros s n s'. rewrite parseExpression_eq. apply keeps_state_parseFactor.
Qed.

Lemma keeps_state_parseProgram (fuel : nat) : keeps_state (parseProgram fuel).
Proof.
  intros s [] s' H. apply parseProgram_ok_inv in H. apply H.
Qed.

Lemma again_same (s : State) : again s s = s.
Proof. destruct s. reflexivity. Qed.

(** The nodes of the statement rules, whatever the tokenizer: a declaration
    is a node without children; an assignment has the tree of its expression
    as right child and no left child; a conditional has the body as left
    child and the right side of the comparison as right child. *)
Lemma statement_nodes_shape (T : M unit) :
  (forall s n s',
      Rules.parseDeclaration T s = Ok n s' -> well_formed n = true)
  /\ (forall fuel s n s',
         Rules.parseAssignment T fuel s = Ok n s' ->
         exists rhs, left n = None /\ right n = Some rhs
                     /\ well_formed rhs = true)
  /\ (forall fuel s n s',
         Rules.parseConditional T fuel s = Ok n s' ->
         exists body rhs r,
           left n = Some body /\ right body = Some rhs
           /\ well_formed rhs = true
           /\ right n = Some r /\ well_formed r = true).
Proof.
  split.
  { intros s n s' H. apply Rules_parseDeclaration_ok_inv in H.
    destruct H as (s1 & _ & _ & Hk & ->).
    apply well_formed_createNode. unfold is_operand. rewrite Hk. reflexivity. }
  split.
  { intros fuel s n s' H. apply Rules_parseAssignment_ok_inv in H.
    destruct H as (rhs & s1 & s2 & _ & He & ->). exists rhs.
    repeat split. exact (well_formed_parseExpression _ _ _ _ _ He). }
  intros fuel s n s' H. apply Rules_parseConditional_ok_inv in H.
  destruct H as (l & r & body & s2 & s3 & s4 & s5 & s7 & s8
                 & _ & Hr & Hb & ->).
  apply Rules_parseAssignment_ok_inv in Hb.
  destruct Hb as (rhs & s1 & s1' & _ & He & ->).
  exists (mkNode TOKEN_IDENTIFIER None (Some rhs) (text (currentToken s7))),
         rhs, r.
  repeat split.
  - exact (well_formed_parseExpression _ _ _ _ _ He).
  - exact (well_formed_parseExpression _ _ _ _ _ Hr).
Qed.

Lemma operators_complete_createNode (t : Token) :
  is_operand (type t) = true -> operators_complete (createNode t) = true.
Proof.
  destruct t as [k x]. destruct k; intros H;
    first [reflexivity | discriminate H].
Qed.

Lemma operators_complete_chain (rest : list (Token * Token)) :
  forall first : Node,
    operators_complete first = true ->
    Forall (fun p => is_operator (type (fst p)) = true
                     /\ is_operand (type (snd p)) = true) rest ->
    operators_complete (chain first rest) = true.
Proof.
  induction rest as [|[op f] rest IH]; intros first Hfirst Hrest.
  - exact Hfirst.
  - inversion Hrest as [|? ? [Hop Hf] Hrest']; subst.
    unfold chain. cbn [fold_left]. apply IH; [|exact Hrest'].
    cbn [fst snd] in *. apply operators_complete_createNode in Hf.
    destruct op as [k x]. cbn [type text] in *.
    destruct k; try discriminate Hop;
      cbn; cbn in Hf; rewrite Hfirst, Hf; reflexivity.
Qed.

Lemma operators_complete_parseExpression (T : M unit) (fuel : nat)
  (s s' : State) (n : Node) :
  Rules.parseExpression T fuel s = Ok n s' -> operators_complete n = true.
Proof.
  intros H. apply Rules_parseExpression_ok_inv in H.
  destruct H as (rest & -> & Hopd & Hrest).
  apply operators_complete_chain;
    [apply operators_complete_createNode; exact Hopd | exact Hrest].
Qed.

(** ** The global token from one run to the next *)

Lemma keeps_token_ret {A} (a : A) : keeps_token (ret a).
Proof. intros s a' s' H. inversion H; subst. reflexivity. Qed.

Lemma keeps_token_bind {A B} (m : M A) (k : A -> M B) :
  keeps_token m -> (forall a, keeps_token (k a)) -> keeps_token (bind m k).
Proof.
  intros Hm Hk s b s' H. apply bind_inv in H.
  destruct H as (a & s1 & H1 & H2).
  apply Hm in H1. apply Hk in H2. congruence.
Qed.

Section TokenKept.

Variable T : M unit.
Hypothesis T_keeps : keeps_token T.

Lemma keeps_token_match (expected : TokenType) :
  keeps_token (Rules.match_ T expected).
Proof.
  intros s u s' H. apply Rules_match_ok_inv in H. destruct H as [_ H].
  exact (T_keeps _ _ _ H).
Qed.

Lemma keeps_token_parseFactor : keeps_token (Rules.parseFactor T).
Proof.
  intros s n s' H. apply Rules_parseFactor_ok_inv in H.
  destruct H as (_ & _ & H). exact (T_keeps _ _ _ H).
Qed.

Lemma keeps_token_parseExpression_loop (fuel : nat) :
  forall node, keeps_token (Rules.parseExpression_loop T fuel node).
Proof.
  induction fuel as [|fuel IH]; intros node s n s';
    cbn [Rules.parseExpression_loop];
    destruct (kind_eqb (type (currentToken s)) TOKEN_PLUS
              || kind_eqb (type (currentToken s)) TOKEN_MINUS);
    try discriminate; try (intros H; inversion H; subst; reflexivity).
  intros H. apply bind_inv in H. destruct H as ([] & s1 & Hm & H).
  apply bind_inv in H. destruct H as (rhs & s2 & Hf & H).
  apply keeps_token_match in Hm. apply keeps_token_parseFactor in Hf.
  apply IH in H. congruence.
Qed.

Lemma keeps_token_parseExpression (fuel : nat) :
  keeps_token (Rules.parseExpression T fuel).
Proof.
  apply keeps_token_bind; [apply keeps_token_parseFactor|].
  intros node. apply keeps_token_parseExpression_loop.
Qed.

Lemma keeps_token_parseAssignment (fuel : nat) :
  keeps_token (Rules.parseAssignment T fuel).
Proof.
  intros s n s' H. unfold Rules.parseAssignment in H.
  apply bind_inv in H. destruct H as ([] & s1 & H1 & H).
  apply bind_inv in H. destruct H as ([] & s2 & H2 & H).
  apply bind_inv in H. destruct H as (rhs & s3 & H3 & H).
  apply bind_inv in H. destruct H as ([] & s4 & H4 & H).
  apply keeps_token_match in H1, H2, H4.
  apply keeps_token_parseExpression in H3.
  apply keeps_token_ret in H. congruence.
Qed.

Lemma keeps_token_parseDeclaration : keeps_token (Rules.parseDeclaration T).
Proof.
  intros s n s' H. unfold Rules.parseDeclaration in H.
  apply bind_inv in H. destruct H as ([] & s1 & H1 & H).
  apply bind_inv in H. destruct H as ([] & s2 & H2 & H).
  apply bind_inv in H. destruct H as ([] & s3 & H3 & H).
  apply keeps_token_match in H1, H2, H3. apply keeps_token_ret in H.
  congruence.
Qed.

Lemma keeps_token_parseConditional (fuel : nat) :
  keeps_token (Rules.parseConditional T fuel).
Proof.
  intros s n s' H. unfold Rules.parseConditional in H.
  apply bind_inv in H. destruct H as ([] & s1 & H1 & H).
  apply bind_inv in H. destruct H as ([] & s2 & H2 & H).
  apply bind_inv in H. destruct H as (l & s3 & H3 & H).
  apply bind_inv in H. destruct H as ([] & s4 & H4 & H).
  apply bind_inv in H. destruct H as (r & s5 & H5 & H).
  apply bind_inv in H. destruct H as ([] & s6 & H6 & H).
  apply bind_inv in H. destruct H as ([] & s7 & H7 & H).
  apply bind_inv in H. destruct H as (body & s8 & H8 & H).
  apply bind_inv in H. destruct H as ([] & s9 & H9 & H).
  apply keeps_token_match in H1, H2, H4, H6, H7, H9.
  apply keeps_token_parseExpression in H3, H5.
  apply keeps_token_parseAssignment in H8.
  apply keeps_token_ret in H. congruence.
Qed.

Lemma keeps_token_statement (fuel : nat) :
  keeps_token (Rules.statement T fuel).
Proof.
  intros s stmt s'. unfold Rules.statement.
  destruct (kind_eqb (type (currentToken s)) TOKEN_INT).
  { apply keeps_token_bind; [apply keeps_token_parseDeclaration|].
    intros ?. apply keeps_token_ret. }
  destruct (kind_eqb (type (currentToken s)) TOKEN_IF).
  { apply keeps_token_bind; [apply keeps_token_parseConditional|].
    intros ?. apply keeps_token_ret. }
  destruct (kind_eqb (type (currentToken s)) TOKEN_IDENTIFIER).
  { apply keeps_token_bind; [apply keeps_token_parseAssignment|].
    intros ?. apply keeps_token_ret. }
  intros H. inversion H; subst. reflexivity.
Qed.

Lemma keeps_token_report (stmt : option Node) :
  keeps_token (Rules.report stmt).
Proof.
  intros s u s'. destruct stmt as [n|]; [|discriminate].
  cbn [Rules.report]. unfold printf. intros H. inversion H; subst.
  reflexivity.
Qed.

Lemma keeps_token_parseProgram_loop (fuel_e fuel : nat) :
  keeps_token (Rules.parseProgram_loop T fuel_e fuel).
Proof.
  induction fuel as [|fuel IH]; intros s u s';
    cbn [Rules.parseProgram_loop];
    destruct (negb (kind_eqb (type (currentToken s)) TOKEN_EOF));
    try discriminate; try (intros H; inversion H; subst; reflexivity).
  intros H. apply bind_inv in H. destruct H as (stmt & s1 & Hs & H).
  apply bind_inv in H. destruct H as ([] & s2 & Hr & H).
  apply keeps_token_statement in Hs. apply keeps_token_report in Hr.
  apply IH in H. congruence.
Qed.

Lemma keeps_token_parseProgram (fuel : nat) :
  keeps_token (Rules.parseProgram T fuel).
Proof.
  apply keeps_token_bind; [exact T_keeps|].
  intros _. apply keeps_token_parseProgram_loop.
Qed.

End TokenKept.

Lemma keeps_token_getNextToken : keeps_token getNextToken.
Proof. intros s u s' H. inversion H; subst. reflexivity. Qed.

Lemma ignores_current_token_nextToken :
  ignores_current_token Tokenizer.nextToken.
Proof. intros tok tok' f out. reflexivity. Qed.

(** * The properties of the specification *)

(** C1 (the code does otherwise): for the input [if { a == b } { x = 1; }]
    the specification expects a conditional node with the comparison of [a]
    and [b] and the assignment as body.  In the program [parseConditional]
    returns no node: with the keyword [if] as current token its first [match]
    passes, the token stays, and [match(TOKEN_LBRACE)] ends the process with
    "expected token 8 but got 6"; from the state in which [main] starts a
    parse, [match(TOKEN_IF)] already fails. *)
Theorem parseConditional_returns_no_node :
  parseConditional 1
    (mkState (mkToken TOKEN_IF "") " { a == b } { x = 1; }" [])
  = Exit 1 [syntax_error_message TOKEN_LBRACE TOKEN_IF]
  /\ parseConditional 1 (initial_state "if { a == b } { x = 1; }")
     = Exit 1 [syntax_error_message TOKEN_IF TOKEN_INT].
Proof. split; reflexivity. Qed.

(** C2 (the code does otherwise): when the current token starts no statement
    and is not the end of the input, the specification expects a syntax
    error.  In [parseProgram] no branch of the dispatch is taken, [stmt] keeps
    its indeterminate value and [stmt->value] is read: here on a number and on
    an unknown character, with nothing printed and no [exit]. *)
Theorem parseProgram_reads_unassigned_stmt :
  parseProgram 1 (mkState (mkToken TOKEN_NUMBER "5") ";" []) = Undefined
  /\ parseProgram 1 (mkState (mkToken TOKEN_UNKNOWN "$") "" []) = Undefined.
Proof. split; reflexivity. Qed.

(** C3 (the code does otherwise): [match] is expected to move to the next
    token when the kinds agree.  In the program the current token after
    [match(TOKEN_INT)] is the token before it, so for [int 5;] the
    [match(TOKEN_IDENTIFIER)] of the declaration meets [TOKEN_INT] again and
    the message names kind 0 as found, not kind 2 ([TOKEN_NUMBER]). *)
Theorem match_leaves_current_token :
  let s := mkState (mkToken TOKEN_INT "") " 5;" [] in
  match_ TOKEN_INT s = Ok tt s
  /\ parseDeclaration s
     = Exit 1 [syntax_error_message TOKEN_IDENTIFIER TOKEN_INT]
  /\ main 1 (Some "int 5;")
     = Exit 1 [syntax_error_message TOKEN_IDENTIFIER TOKEN_INT]
  /\ syntax_error_message TOKEN_IDENTIFIER TOKEN_INT
     <> syntax_error_message TOKEN_IDENTIFIER TOKEN_NUMBER.
Proof.
  cbv zeta. repeat split; try reflexivity.
  intros H. apply syntax_error_message_inj in H. destruct H as [_ H].
  discriminate H.
Qed.

(** C4 (the code does otherwise): for [a + b - c] the specification expects
    the tree [((a + b) - c)].  In the program the current token after the
    first factor is still [a], the loop is not entered, and [parseExpression]
    returns the leaf [a] alone. *)
Theorem parseExpression_returns_first_factor :
  let s := mkState (mkToken TOKEN_IDENTIFIER "a") " + b - c" [] in
  parseExpression 2 s = Ok (leaf TOKEN_IDENTIFIER "a") s.
Proof. reflexivity. Qed.



(** C6 (the code does otherwise): for [int x;] the specification expects the
    declaration node of [x].  In the program [match(TOKEN_INT)] passes, the
    current token stays the same, and [match(TOKEN_IDENTIFIER)] ends the
    process with "expected token 1 but got 0": no node is returned. *)
Theorem parseDeclaration_returns_no_node :
  parseDeclaration (initial_state "int x;")
  = Exit 1 [syntax_error_message TOKEN_IDENTIFIER TOKEN_INT]
  /\ main 1 (Some "int x;")
     = Exit 1 [syntax_error_message TOKEN_IDENTIFIER TOKEN_INT].
Proof. split; reflexivity. Qed.

(** C7 (the code does otherwise): for [x = 1 + 2;] the specification expects
    an assignment node with the tree of [1 + 2] as right child.  In the
    program, with the identifier [x] as current token, [match(TOKEN_IDENTIFIER)]
    passes, the token stays, and [match(TOKEN_ASSIGN)] ends the process with
    "expected token 3 but got 1"; run from [main], the text is taken for a
    declaration and fails there. *)
Theorem parseAssignment_returns_no_node :
  parseAssignment 1 (mkState (mkToken TOKEN_IDENTIFIER "x") " = 1 + 2;" [])
  = Exit 1 [syntax_error_message TOKEN_ASSIGN TOKEN_IDENTIFIER]
  /\ main 1 (Some "x = 1 + 2;")
     = Exit 1 [syntax_error_message TOKEN_IDENTIFIER TOKEN_INT].
Proof. split; reflexivity. Qed.



(** C10: [getNextToken] returns in the state in which it was called.  So
    [match], every grammar rule and [parseProgram] return with the current
    token they found; the statement rules, which need two different tokens in
    a row, end the same way whatever the input stream holds; and the outcome
    of the program does not depend on its input. *)
Theorem getNextToken_keeps_current_token :
  (forall s, getNextToken s = Ok tt s)
  /\ (forall k, keeps_state (match_ k))
  /\ (forall fuel m, In m (rules fuel) -> keeps_state m)
  /\ (forall fuel, keeps_state (parseProgram fuel))
  /\ (forall tok f1 f2 out,
         parseDeclaration (mkState tok f1 out)
         = parseDeclaration (mkState tok f2 out))
  /\ (forall fuel tok f1 f2 out,
         parseAssignment fuel (mkState tok f1 out)
         = parseAssignment fuel (mkState tok f2 out))
  /\ (forall fuel tok f1 f2 out,
         parseConditional fuel (mkState tok f1 out)
         = parseConditional fuel (mkState tok f2 out))
  /\ (forall fuel f1 f2, main fuel (Some f1) = main fuel (Some f2)).
Proof.
  split; [exact getNextToken_skip|].
  split; [exact keeps_state_match|].
  split.
  { intros fuel m Hm. cbn [rules In] in Hm.
    destruct Hm as [<-|[<-|[<-|[<-|[<-|[]]]]]].
    - exact keeps_state_parseFactor.
    - apply keeps_state_parseExpression.
    - intros s n s1. rewrite parseAssignment_eq. discriminate.
    - intros s n s1. rewrite parseDeclaration_eq. discriminate.
    - intros s n s1. rewrite parseConditional_eq. discriminate. }
  split; [exact keeps_state_parseProgram|].
  split; [intros; rewrite !parseDeclaration_eq; reflexivity|].
  split; [intros; rewrite !parseAssignment_eq; reflexivity|].
  split; [intros; rewrite !parseConditional_eq; reflexivity|].
  intros [|fuel] f1 f2; [reflexivity|]. rewrite !main_eq. reflexivity.
Qed.

Lemma getNextToken_keeps_current_token_witness :
  let s := mkState (mkToken TOKEN_IDENTIFIER "x") " = 1 + 2;" [] in
  exists s' : State,
    match_ TOKEN_IDENTIFIER s = Ok tt s' /\ s' = s.
Proof.
  cbv zeta. eexists. split; [reflexivity|].
  apply (proj1 (proj2 getNextToken_keeps_current_token) TOKEN_IDENTIFIER
           (mkState (mkToken TOKEN_IDENTIFIER "x") " = 1 + 2;" []) tt).
  reflexivity.
Defined.

(** * Further properties of the code *)

(** ** The tokens that a rule consumes *)

Lemma consumed_seq (T : M unit) (a b : nat) :
  forall s l1 s1 l2 s2,
    consumed T a s = Some (l1, s1) ->
    consumed T b s1 = Some (l2, s2) ->
    consumed T (a + b) s = Some (l1 ++ l2, s2).
Proof.
  induction a as [|a IH]; intros s l1 s1 l2 s2 Ha Hb.
  - cbn in Ha. inversion Ha; subst. exact Hb.
  - cbn [consumed Nat.add] in *.
    destruct (T s) as [u s0| | |]; try discriminate.
    destruct (consumed T a s0) as [[l s0']|] eqn:E; [|discriminate].
    inversion Ha; subst. rewrite (IH _ _ _ _ _ E Hb). reflexivity.
Qed.

Lemma consumed_one (T : M unit) (s s' : State) (u : unit) :
  T s = Ok u s' -> consumed T 1 s = Some ([currentToken s], s').
Proof. intros H. cbn. rewrite H. reflexivity. Qed.

Lemma consumed_match (T : M unit) (k : TokenType) (s s' : State) (u : unit) :
  Rules.match_ T k s = Ok u s' ->
  type (currentToken s) = k
  /\ consumed T 1 s = Some ([currentToken s], s').
Proof.
  intros H. apply Rules_match_ok_inv in H. destruct H as [Hk H].
  split; [exact Hk | exact (consumed_one _ _ _ _ H)].
Qed.

Lemma token_of_createNode (t : Token) : token_of (createNode t) = t.
Proof. destruct t. reflexivity. Qed.

Lemma inorder_createNode (t : Token) : inorder (createNode t) = [t].
Proof. destruct t. reflexivity. Qed.

Lemma size_createNode (t : Token) : size (createNode t) = 1.
Proof. reflexivity. Qed.

Lemma inorder_chain (rest : list (Token * Token)) :
  forall first : Node,
    inorder (chain first rest) = inorder first ++ chain_tokens rest.
Proof.
  induction rest as [|[op f] rest IH]; intros first.
  - cbn. rewrite app_nil_r. reflexivity.
  - unfold chain. cbn [fold_left]. fold (chain
      (mkNode (type (fst (op, f))) (Some first) (Some (createNode (snd (op, f))))
              (text (fst (op, f)))) rest).
    rewrite IH. cbn [fst snd chain_tokens flat_map].
    cbn [inorder left right]. fold inorder.
    rewrite inorder_createNode. unfold token_of. cbn [node_type value].
    destruct op as [k x]. cbn [type text].
    rewrite <- app_assoc. reflexivity.
Qed.

Lemma size_chain (rest : list (Token * Token)) :
  forall first : Node,
    size (chain first rest) = size first + 2 * length rest.
Proof.
  induction rest as [|[op f] rest IH]; intros first.
  - cbn. rewrite Nat.add_0_r. reflexivity.
  - unfold chain. cbn [fold_left]. fold (chain
      (mkNode (type (fst (op, f))) (Some first) (Some (createNode (snd (op, f))))
              (text (fst (op, f)))) rest).
    rewrite IH. cbn [size left right length]. fold size.
    rewrite size_createNode. lia.
Qed.

(** The loop of [parseExpression] consumes an operator and an operand per
    turn, and they become the nodes of the chain. *)
Lemma parseExpression_loop_consumed (T : M unit) (fuel : nat) :
  forall (node : Node) (s s' : State) (n : Node),
    Rules.parseExpression_loop T fuel node s = Ok n s' ->
    exists rest : list (Token * Token),
      n = chain node rest
      /\ Forall (fun p => is_operator (type (fst p)) = true
                          /\ is_operand (type (snd p)) = true) rest
      /\ consumed T (2 * length rest) s = Some (chain_tokens rest, s')
      /\ is_operator (type (currentToken s')) = false.
Proof.
  induction fuel as [|fuel IH]; intros node s s' n;
    cbn [Rules.parseExpression_loop];
    fold (is_operator (type (currentToken s)));
    destruct (is_operator (type (currentToken s))) eqn:Eop;
    try discriminate.
  - intros H. inversion H; subst. exists [].
    repeat split; [constructor | exact Eop].
  - intros H. apply bind_inv in H. destruct H as ([] & s1 & Hm & H).
    apply bind_inv in H. destruct H as (rhs & s2 & Hf & H).
    apply consumed_match in Hm. destruct Hm as [_ Hm].
    apply Rules_parseFactor_ok_inv in Hf. destruct Hf as (-> & Hopd & Hf).
    apply consumed_one in Hf.
    apply IH in H. destruct H as (rest & -> & Hrest & Hc & Hend).
    exists ((currentToken s, currentToken s1) :: rest).
    split; [reflexivity|].
    split; [constructor; [split; assumption | exact Hrest]|].
    split; [|exact Hend].
    pose proof (consumed_seq T 1 1 _ _ _ _ _ Hm Hf) as H2.
    pose proof (consumed_seq T 2 _ _ _ _ _ _ H2 Hc) as H3.
    cbn [length]. replace (2 * S (length rest)) with (2 + 2 * length rest)
      by lia.
    exact H3.
  - intros H. inversion H; subst. exists [].
    repeat split; [constructor | exact Eop].
Qed.

Lemma parseExpression_consumed (T : M unit) (fuel : nat) (s s' : State)
  (n : Node) :
  Rules.parseExpression T fuel s = Ok n s' ->
  consumed T (size n) s = Some (inorder n, s')
  /\ hd_error (inorder n) = Some (currentToken s)
  /\ well_formed n = true
  /\ is_operator (type (currentToken s')) = false.
Proof.
  intros H. pose proof (well_formed_parseExpression _ _ _ _ _ H) as Hwf.
  apply bind_inv in H. destruct H as (first & s1 & Hf & H).
  apply Rules_parseFactor_ok_inv in Hf. destruct Hf as (-> & Hopd & Hf).
  apply consumed_one in Hf.
  apply parseExpression_loop_consumed in H.
  destruct H as (rest & -> & Hrest & Hc & Hend).
  rewrite size_chain, inorder_chain, size_createNode, inorder_createNode.
  repeat split; try assumption.
  exact (consumed_seq T 1 _ _ _ _ _ _ Hf Hc).
Qed.

Lemma parseDeclaration_consumed (T : M unit) (s s' : State) (n : Node) :
  Rules.parseDeclaration T s = Ok n s' ->
  exists t_id t_semi : Token,
    type (currentToken s) = TOKEN_INT
    /\ type t_id = TOKEN_IDENTIFIER
    /\ type t_semi = TOKEN_SEMICOLON
    /\ n = createNode t_id
    /\ consumed T 3 s = Some ([currentToken s; t_id; t_semi], s').
Proof.
  unfold Rules.parseDeclaration. intros H.
  apply bind_inv in H. destruct H as ([] & s1 & H1 & H).
  apply bind_inv in H. destruct H as ([] & s2 & H2 & H).
  apply bind_inv in H. destruct H as ([] & s3 & H3 & H).
  inversion H; subst.
  apply consumed_match in H1, H2, H3.
  destruct H1 as [K1 C1], H2 as [K2 C2], H3 as [K3 C3].
  exists (currentToken s1), (currentToken s2).
  repeat split; try assumption.
  pose proof (consumed_seq T 1 1 _ _ _ _ _ C2 C3) as C23.
  exact (consumed_seq T 1 2 _ _ _ _ _ C1 C23).
Qed.

Lemma parseAssignment_consumed (T : M unit) (fuel : nat) (s s' : State)
  (n : Node) :
  Rules.parseAssignment T fuel s = Ok n s' ->
  exists (t_assign : Token) (rhs : Node) (t_semi : Token),
    type (currentToken s) = TOKEN_IDENTIFIER
    /\ type t_assign = TOKEN_ASSIGN
    /\ type t_semi = TOKEN_SEMICOLON
    /\ well_formed rhs = true
    /\ n = mkNode TOKEN_IDENTIFIER None (Some rhs) (text (currentToken s))
    /\ consumed T (size n + 2) s
       = Some (currentToken s :: t_assign :: inorder rhs ++ [t_semi], s').
Proof.
  unfold Rules.parseAssignment. intros H.
  apply bind_inv in H. destruct H as ([] & s1 & H1 & H).
  apply bind_inv in H. destruct H as ([] & s2 & H2 & H).
  apply bind_inv in H. destruct H as (rhs & s3 & He & H).
  apply bind_inv in H. destruct H as ([] & s4 & H4 & H).
  inversion H; subst.
  apply consumed_match in H1, H2, H4.
  destruct H1 as [K1 C1], H2 as [K2 C2], H4 as [K4 C4].
  apply parseExpression_consumed in He. destruct He as (Ce & _ & Hwf & _).
  exists (currentToken s1), rhs, (currentToken s3).
  repeat split; try assumption.
  - unfold set_right, createNode. cbn. rewrite K1. reflexivity.
  - pose proof (consumed_seq T _ 1 _ _ _ _ _ Ce C4) as C34.
    pose proof (consumed_seq T 1 _ _ _ _ _ _ C2 C34) as C24.
    pose proof (consumed_seq T 1 _ _ _ _ _ _ C1 C24) as C14.
    cbn [size set_right createNode left right].
    replace (S (0 + size rhs) + 2) with (1 + (1 + (size rhs + 1))) by lia.
    exact C14.
Qed.

Lemma parseConditional_consumed (T : M unit) (fuel : nat) (s s' : State)
  (n : Node) :
  Rules.parseConditional T fuel s = Ok n s' ->
  exists (t_open : Token) (l : Node) (t_equal : Token) (r : Node)
         (t_close t_open' t_name t_assign : Token) (rhs : Node)
         (t_semi t_close' first : Token),
    type (currentToken s) = TOKEN_IF
    /\ type t_open = TOKEN_LBRACE /\ type t_equal = TOKEN_EQUAL
    /\ type t_close = TOKEN_RBRACE /\ type t_open' = TOKEN_LBRACE
    /\ type t_name = TOKEN_IDENTIFIER /\ type t_assign = TOKEN_ASSIGN
    /\ type t_semi = TOKEN_SEMICOLON /\ type t_close' = TOKEN_RBRACE
    /\ well_formed l = true /\ well_formed r = true
    /\ well_formed rhs = true
    /\ hd_error (inorder l) = Some first
    /\ n = mkNode (type first)
                  (Some (mkNode TOKEN_IDENTIFIER None (Some rhs) (text t_name)))
                  (Some r) (text first)
    /\ consumed T (size l + size r + size rhs + 9) s
       = Some (currentToken s :: t_open :: inorder l
               ++ t_equal :: inorder r
               ++ t_close :: t_open' :: t_name :: t_assign :: inorder rhs
               ++ [t_semi; t_close'], s').
Proof.
  unfold Rules.parseConditional. intros H.
  apply bind_inv in H. destruct H as ([] & s1 & H1 & H).
  apply bind_inv in H. destruct H as ([] & s2 & H2 & H).
  apply bind_inv in H. destruct H as (l & s3 & Hl & H).
  apply bind_inv in H. destruct H as ([] & s4 & H4 & H).
  apply bind_inv in H. destruct H as (r & s5 & Hr & H).
  apply bind_inv in H. destruct H as ([] & s6 & H6 & H).
  apply bind_inv in H. destruct H as ([] & s7 & H7 & H).
  apply bind_inv in H. destruct H as (body & s8 & Hb & H).
  apply bind_inv in H. destruct H as ([] & s9 & H9 & H).
  inversion H; subst.
  apply consumed_match in H1, H2, H4, H6, H7, H9.
  destruct H1 as [K1 C1], H2 as [K2 C2], H4 as [K4 C4], H6 as [K6 C6],
           H7 as [K7 C7], H9 as [K9 C9].
  apply parseExpression_consumed in Hl, Hr.
  destruct Hl as (Cl & Hfirst & Hwl & _), Hr as (Cr & _ & Hwr & _).
  apply parseAssignment_consumed in Hb.
  destruct Hb as (t_assign & rhs & t_semi & Kn & Ka & Ks & Hwrhs & -> & Cb).
  exists (currentToken s1), l, (currentToken s3), r, (currentToken s5),
         (currentToken s6), (currentToken s7), t_assign, rhs, t_semi,
         (currentToken s8), (currentToken s2).
  repeat split; try assumption.
  cbn [size left right] in Cb.
  pose proof (consumed_seq T _ 1 _ _ _ _ _ Cb C9) as D1.
  pose proof (consumed_seq T 1 _ _ _ _ _ _ C7 D1) as D2.
  pose proof (consumed_seq T 1 _ _ _ _ _ _ C6 D2) as D3.
  pose proof (consumed_seq T _ _ _ _ _ _ _ Cr D3) as D4.
  pose proof (consumed_seq T 1 _ _ _ _ _ _ C4 D4) as D5.
  pose proof (consumed_seq T _ _ _ _ _ _ _ Cl D5) as D6.
  pose proof (consumed_seq T 1 _ _ _ _ _ _ C2 D6) as D7.
  pose proof (consumed_seq T 1 _ _ _ _ _ _ C1 D7) as D8.
  replace (size l + size r + size rhs + 9)
    with (1 + (1 + (size l + (1 + (size r
            + (1 + (1 + (S (0 + size rhs) + 2 + 1))))))))
    by lia.
  rewrite D8. cbn [app]. rewrite <- !app_assoc. reflexivity.
Qed.

Lemma parseProgram_loop_ends_at_eof (T : M unit) (fuel_e fuel : nat) :
  forall s s' : State,
    Rules.parseProgram_loop T fuel_e fuel s = Ok tt s' ->
    type (currentToken s') = TOKEN_EOF.
Proof.
  induction fuel as [|fuel IH]; intros s s';
    cbn [Rules.parseProgram_loop];
    destruct (kind_eqb (type (currentToken s)) TOKEN_EOF) eqn:E;
    cbn [negb]; try discriminate;
    try (intros H; inversion H; subst; apply kind_eqb_eq; exact E).
  intros H. apply bind_inv in H. destruct H as (stmt & s1 & _ & H).
  apply bind_inv in H. destruct H as ([] & s2 & _ & H).
  exact (IH _ _ H).
Qed.

(** ** The program as written *)

(** X1: whatever [input.txt] holds, the program parses nothing: it prints the
    one line "Syntax error: expected token 1 but got 0" and ends with status
    1; it never returns 0. *)
Theorem main_always_rejects (fuel : nat) (input : FILE) :
  main (S fuel) (Some input)
  = Exit 1 [("Syntax error: expected token 1 but got 0" ++ newline)%string].
Proof. rewrite main_eq. reflexivity. Qed.

(** X2: in the program no statement rule returns.  In every state each of
    them ends the process with status 1 after one more line: the first
    [match] fails on a token of another kind, and otherwise the second
    [match] fails on the token that the first one accepted. *)
Theorem statement_rules_always_exit (fuel : nat) (s : State) :
  parseDeclaration s
  = Exit 1 (stdout s
            ++ [if kind_eqb (type (currentToken s)) TOKEN_INT
                then syntax_error_message TOKEN_IDENTIFIER TOKEN_INT
                else syntax_error_message TOKEN_INT (type (currentToken s))])
  /\ parseAssignment fuel s
     = Exit 1 (stdout s
               ++ [if kind_eqb (type (currentToken s)) TOKEN_IDENTIFIER
                   then syntax_error_message TOKEN_ASSIGN TOKEN_IDENTIFIER
                   else syntax_error_message TOKEN_IDENTIFIER
                                             (type (currentToken s))])
  /\ parseConditional fuel s
     = Exit 1 (stdout s
               ++ [if kind_eqb (type (currentToken s)) TOKEN_IF
                   then syntax_error_message TOKEN_LBRACE TOKEN_IF
                   else syntax_error_message TOKEN_IF (type (currentToken s))]).
Proof.
  split; [apply parseDeclaration_eq|].
  split; [apply parseAssignment_eq | apply parseConditional_eq].
Qed.

(** X3: in the program [parseExpression] never builds an operator node and
    never runs its loop: on a number or identifier it returns the leaf of the
    current token and leaves the state as it was, on any other token it
    prints "Syntax error: expected a number or identifier" and ends the
    process with status 1.  No bound on the loop is needed. *)
Theorem parseExpression_is_one_factor (fuel : nat) (s : State) :
  parseExpression fuel s
  = if is_operand (type (currentToken s))
    then Ok (mkNode (type (currentToken s)) None None (text (currentToken s))) s
    else Exit 1 (stdout s ++ [factor_error_message]).
Proof. rewrite parseExpression_eq. apply parseFactor_eq. Qed.

(** X4: in the program [parseProgram] returns exactly when the current token
    at its entry is [TOKEN_EOF], and then in the state of its entry, with
    nothing printed; its loop never comes to a second turn. *)
Theorem parseProgram_returns_only_at_eof (fuel : nat) (s : State) :
  (forall s', parseProgram fuel s = Ok tt s'
              <-> type (currentToken s) = TOKEN_EOF /\ s' = s)
  /\ parseProgram (S fuel) s = parseProgram 1 s.
Proof.
  split.
  - intros s'. split.
    + apply parseProgram_ok_inv.
    + intros [E ->]. apply parseProgram_at_eof. exact E.
  - rewrite !parseProgram_eq. reflexivity.
Qed.

Lemma parseProgram_returns_only_at_eof_witness :
  let s := mkState (mkToken TOKEN_EOF "") "" ["earlier line"] in
  parseProgram 3 s = Ok tt s.
Proof.
  cbv zeta.
  apply (proj1 (parseProgram_returns_only_at_eof 3
                  (mkState (mkToken TOKEN_EOF "") "" ["earlier line"]))).
  split; reflexivity.
Defined.

(** ** The rules, whatever the tokenizer *)

(** X5: [parseFactor].  A call that returns was made on a number or an
    identifier; the node has the kind and the text of that token and no
    children, and the state is the one [getNextToken] returned.  On a token
    of any other kind the call prints "Syntax error: expected a number or
    identifier" and ends the process with status 1, and [getNextToken] is not
    called. *)
Theorem parseFactor_contract (T : M unit) (s : State) :
  (forall n s',
      Rules.parseFactor T s = Ok n s' ->
      is_operand (type (currentToken s)) = true
      /\ n = mkNode (type (currentToken s)) None None (text (currentToken s))
      /\ T s = Ok tt s')
  /\ (is_operand (type (currentToken s)) = false ->
      Rules.parseFactor T s = Exit 1 (stdout s ++ [factor_error_message])).
Proof.
  split.
  - intros n s' H. apply Rules_parseFactor_ok_inv in H.
    destruct H as (-> & Hk & HT). auto.
  - intros H. unfold Rules.parseFactor.
    fold (is_operand (type (currentToken s))). rewrite H. reflexivity.
Qed.

Lemma parseFactor_contract_witness :
  Rules.parseFactor Tokenizer.nextToken
    (mkState (mkToken TOKEN_NUMBER "42") " + x" [])
  = Ok (leaf TOKEN_NUMBER "42") (mkState (mkToken TOKEN_PLUS "") " x" [])
  /\ Rules.parseFactor Tokenizer.nextToken
       (mkState (mkToken TOKEN_SEMICOLON "") " + x" [])
     = Exit 1 [factor_error_message].
Proof.
  split; [reflexivity|].
  apply (proj2 (parseFactor_contract Tokenizer.nextToken
                  (mkState (mkToken TOKEN_SEMICOLON "") " + x" []))).
  reflexivity.
Defined.

(** X6: a [match] on a token of another kind than the expected one prints
    "Syntax error: expected token E but got A" with the numbers of the
    expected and of the actual kind and ends the process with status 1,
    without a call of [getNextToken]; the line tells both kinds: no other
    pair of kinds gives the same line. *)
Theorem match_error_names_kinds (T : M unit) (expected : TokenType)
  (s : State) :
  type (currentToken s) <> expected ->
  Rules.match_ T expected s
  = Exit 1 (stdout s
            ++ [syntax_error_message expected (type (currentToken s))])
  /\ forall e' a',
       syntax_error_message expected (type (currentToken s))
       = syntax_error_message e' a' ->
       expected = e' /\ type (currentToken s) = a'.
Proof.
  intros H. split; [apply Rules_match_mismatch; exact H|].
  intros e' a'. apply syntax_error_message_inj.
Qed.

Lemma match_error_names_kinds_witness :
  Rules.match_ getNextToken TOKEN_IDENTIFIER
    (mkState (mkToken TOKEN_NUMBER "5") ";" [])
  = Exit 1 [("Syntax error: expected token 1 but got 2" ++ newline)%string].
Proof.
  refine (proj1 (match_error_names_kinds getNextToken TOKEN_IDENTIFIER
                   (mkState (mkToken TOKEN_NUMBER "5") ";" []) _)).
  discriminate.
Defined.

(** X7: the tree of an expression read back.  When [parseExpression]
    returns, the tokens of the nodes of its tree, taken left subtree first,
    are the tokens that were current one after the other from the call on,
    as many as the tree has nodes, and the state returned is the one after the
    last of them: no token is dropped, added or reordered. *)
Theorem expression_tokens_round_trip (T : M unit) (fuel : nat)
  (s s' : State) (n : Node) :
  Rules.parseExpression T fuel s = Ok n s' ->
  consumed T (size n) s = Some (inorder n, s').
Proof. intros H. apply parseExpression_consumed in H. apply H. Qed.

Lemma expression_tokens_round_trip_witness :
  consumed Tokenizer.nextToken 5
    (mkState (mkToken TOKEN_IDENTIFIER "a") " + b - 7;" [])
  = Some ([mkToken TOKEN_IDENTIFIER "a"; mkToken TOKEN_PLUS "";
           mkToken TOKEN_IDENTIFIER "b"; mkToken TOKEN_MINUS "";
           mkToken TOKEN_NUMBER "7"],
          mkState (mkToken TOKEN_SEMICOLON "") "" []).
Proof.
  apply (expression_tokens_round_trip Tokenizer.nextToken 2
           (mkState (mkToken TOKEN_IDENTIFIER "a") " + b - 7;" [])
           (mkState (mkToken TOKEN_SEMICOLON "") "" [])
           (binary TOKEN_MINUS
              (binary TOKEN_PLUS (leaf TOKEN_IDENTIFIER "a")
                                 (leaf TOKEN_IDENTIFIER "b"))
              (leaf TOKEN_NUMBER "7"))).
  reflexivity.
Defined.

(** X8: the tree of an expression groups to the left.  A tree that
    [parseExpression] returns is the leaf of the first token, extended once
    per operator by a node that has the tree so far as left child and the
    leaf of the next factor as right child; every operator node is a [+] or a
    [-], every leaf a number or an identifier, and no right child has
    children. *)
Theorem expression_groups_left (T : M unit) (fuel : nat) (s s' : State)
  (n : Node) :
  Rules.parseExpression T fuel s = Ok n s' ->
  exists rest : list (Token * Token),
    n = chain (createNode (currentToken s)) rest
    /\ is_operand (type (currentToken s)) = true
    /\ Forall (fun p => is_operator (type (fst p)) = true
                        /\ is_operand (type (snd p)) = true) rest
    /\ left_deep n = true.
Proof.
  intros H. pose proof (left_deep_parseExpression _ _ _ _ _ H) as Hl.
  apply Rules_parseExpression_ok_inv in H.
  destruct H as (rest & -> & Hopd & Hrest). exists rest. auto.
Qed.

Lemma expression_groups_left_witness :
  exists rest : list (Token * Token),
    binary TOKEN_MINUS
      (binary TOKEN_PLUS (leaf TOKEN_IDENTIFIER "a") (leaf TOKEN_IDENTIFIER "b"))
      (leaf TOKEN_NUMBER "7")
    = chain (createNode (mkToken TOKEN_IDENTIFIER "a")) rest
    /\ is_operand TOKEN_IDENTIFIER = true
    /\ Forall (fun p => is_operator (type (fst p)) = true
                        /\ is_operand (type (snd p)) = true) rest
    /\ left_deep
         (binary TOKEN_MINUS
            (binary TOKEN_PLUS (leaf TOKEN_IDENTIFIER "a")
                               (leaf TOKEN_IDENTIFIER "b"))
            (leaf TOKEN_NUMBER "7")) = true.
Proof.
  apply (expression_groups_left Tokenizer.nextToken 2
           (mkState (mkToken TOKEN_IDENTIFIER "a") " + b - 7;" [])
           (mkState (mkToken TOKEN_SEMICOLON "") "" [])).
  reflexivity.
Defined.

(** X9: [parseExpression] reads as far as the operators go: in the state in
    which it returns, the current token is neither [+] nor [-]. *)
Theorem expression_stops_at_non_operator (T : M unit) (fuel : nat)
  (s s' : State) (n : Node) :
  Rules.parseExpression T fuel s = Ok n s' ->
  is_operator (type (currentToken s')) = false.
Proof. intros H. apply parseExpression_consumed in H. apply H. Qed.

Lemma expression_stops_at_non_operator_witness :
  let s := mkState (mkToken TOKEN_NUMBER "1") " + 2 } {" [] in
  let s' := mkState (mkToken TOKEN_RBRACE "") " {" [] in
  Rules.parseExpression Tokenizer.nextToken 1 s
  = Ok (binary TOKEN_PLUS (leaf TOKEN_NUMBER "1") (leaf TOKEN_NUMBER "2")) s'
  /\ is_operator (type (currentToken s')) = false.
Proof.
  cbv zeta. split; [reflexivity|].
  apply (expression_stops_at_non_operator Tokenizer.nextToken 1
           (mkState (mkToken TOKEN_NUMBER "1") " + 2 } {" [])
           (mkState (mkToken TOKEN_RBRACE "") " {" [])
           (binary TOKEN_PLUS (leaf TOKEN_NUMBER "1") (leaf TOKEN_NUMBER "2"))).
  reflexivity.
Defined.

(** X10: an operator must be followed by a factor.  At any turn of the loop
    of [parseExpression], whatever tree has been built so far: when the
    current token is a [+] or a [-] and the token after it is neither a
    number nor an identifier, no tree is returned; the text "Syntax error:
    expected a number or identifier" is printed and the process ends with
    status 1. *)
Theorem operator_needs_operand (T : M unit) (fuel : nat) (node : Node)
  (s s1 : State) :
  is_operator (type (currentToken s)) = true ->
  T s = Ok tt s1 ->
  is_operand (type (currentToken s1)) = false ->
  Rules.parseExpression_loop T (S fuel) node s
  = Exit 1 (stdout s1 ++ [factor_error_message]).
Proof.
  intros H0 T0 H1.
  cbn [Rules.parseExpression_loop].
  fold (is_operator (type (currentToken s))). rewrite H0.
  unfold bind. rewrite (Rules_match_same T _ s eq_refl), T0.
  unfold Rules.parseFactor. fold (is_operand (type (currentToken s1))).
  rewrite H1. reflexivity.
Qed.

Lemma operator_needs_operand_witness :
  Rules.parseExpression_loop Tokenizer.nextToken 1
    (binary TOKEN_PLUS (leaf TOKEN_IDENTIFIER "a") (leaf TOKEN_IDENTIFIER "b"))
    (mkState (mkToken TOKEN_MINUS "") " ;" [])
  = Exit 1 [factor_error_message]
  /\ Rules.parseExpression Tokenizer.nextToken 2
       (mkState (mkToken TOKEN_IDENTIFIER "a") " + b - ;" [])
     = Exit 1 [factor_error_message].
Proof.
  split; [|reflexivity].
  apply (operator_needs_operand Tokenizer.nextToken 0
           (binary TOKEN_PLUS (leaf TOKEN_IDENTIFIER "a")
                              (leaf TOKEN_IDENTIFIER "b"))
           (mkState (mkToken TOKEN_MINUS "") " ;" [])
           (mkState (mkToken TOKEN_SEMICOLON "") "" []));
    reflexivity.
Defined.

(** X11: a declaration.  When [parseDeclaration] returns it has consumed
    three tokens, an [int], an identifier and a semicolon, and its node is
    the leaf of the identifier: it has the identifier's text as value and no
    children. *)
Theorem declaration_consumes_three_tokens (T : M unit) (s s' : State)
  (n : Node) :
  Rules.parseDeclaration T s = Ok n s' ->
  exists t_id t_semi : Token,
    type (currentToken s) = TOKEN_INT
    /\ type t_id = TOKEN_IDENTIFIER
    /\ type t_semi = TOKEN_SEMICOLON
    /\ n = mkNode TOKEN_IDENTIFIER None None (text t_id)
    /\ consumed T 3 s = Some ([currentToken s; t_id; t_semi], s').
Proof.
  intros H. apply parseDeclaration_consumed in H.
  destruct H as (t_id & t_semi & K1 & K2 & K3 & -> & C).
  exists t_id, t_semi. repeat split; try assumption.
  unfold createNode. rewrite K2. reflexivity.
Qed.

Lemma declaration_consumes_three_tokens_witness :
  let s := mkState (mkToken TOKEN_INT "") " count; x = 1;" [] in
  let s' := mkState (mkToken TOKEN_IDENTIFIER "x") " = 1;" [] in
  Rules.parseDeclaration Tokenizer.nextToken s
  = Ok (leaf TOKEN_IDENTIFIER "count") s'
  /\ exists t_id t_semi : Token,
       type (currentToken s) = TOKEN_INT
       /\ type t_id = TOKEN_IDENTIFIER
       /\ type t_semi = TOKEN_SEMICOLON
       /\ leaf TOKEN_IDENTIFIER "count"
          = mkNode TOKEN_IDENTIFIER None None (text t_id)
       /\ consumed Tokenizer.nextToken 3 s
          = Some ([currentToken s; t_id; t_semi], s').
Proof.
  cbv zeta. split; [reflexivity|].
  apply (declaration_consumes_three_tokens Tokenizer.nextToken
           (mkState (mkToken TOKEN_INT "") " count; x = 1;" [])
           (mkState (mkToken TOKEN_IDENTIFIER "x") " = 1;" [])).
  reflexivity.
Defined.

(** X12: an assignment.  When [parseAssignment] returns it has consumed an
    identifier, an [=], the tokens of an expression and a semicolon, in this
    order and no more.  Its node carries the kind [TOKEN_IDENTIFIER] and the
    identifier's text, has no left child, and has the tree of the expression
    as right child; the [=] and the semicolon leave no node. *)
Theorem assignment_consumes_its_tokens (T : M unit) (fuel : nat)
  (s s' : State) (n : Node) :
  Rules.parseAssignment T fuel s = Ok n s' ->
  exists (t_assign : Token) (rhs : Node) (t_semi : Token),
    type (currentToken s) = TOKEN_IDENTIFIER
    /\ type t_assign = TOKEN_ASSIGN
    /\ type t_semi = TOKEN_SEMICOLON
    /\ well_formed rhs = true
    /\ n = mkNode TOKEN_IDENTIFIER None (Some rhs) (text (currentToken s))
    /\ consumed T (size n + 2) s
       = Some (currentToken s :: t_assign :: inorder rhs ++ [t_semi], s').
Proof. apply parseAssignment_consumed. Qed.

Lemma assignment_consumes_its_tokens_witness :
  let s := mkState (mkToken TOKEN_IDENTIFIER "x") " = 1 + y; }" [] in
  let s' := mkState (mkToken TOKEN_RBRACE "") "" [] in
  let n := mkNode TOKEN_IDENTIFIER None
             (Some (binary TOKEN_PLUS (leaf TOKEN_NUMBER "1")
                                      (leaf TOKEN_IDENTIFIER "y"))) "x" in
  Rules.parseAssignment Tokenizer.nextToken 1 s = Ok n s'
  /\ exists (t_assign : Token) (rhs : Node) (t_semi : Token),
       type (currentToken s) = TOKEN_IDENTIFIER
       /\ type t_assign = TOKEN_ASSIGN
       /\ type t_semi = TOKEN_SEMICOLON
       /\ well_formed rhs = true
       /\ n = mkNode TOKEN_IDENTIFIER None (Some rhs) (text (currentToken s))
       /\ consumed Tokenizer.nextToken (size n + 2) s
          = Some (currentToken s :: t_assign :: inorder rhs ++ [t_semi], s').
Proof.
  cbv zeta. split; [reflexivity|].
  apply (assignment_consumes_its_tokens Tokenizer.nextToken 1
           (mkState (mkToken TOKEN_IDENTIFIER "x") " = 1 + y; }" [])
           (mkState (mkToken TOKEN_RBRACE "") "" [])).
  reflexivity.
Defined.

(** X13: a conditional.  When [parseConditional] returns it has consumed
    [if], an opening brace, the tokens of a first expression, [==], the tokens
    of a second expression, a closing and an opening brace, the tokens of one
    assignment and a closing brace, in this order and no more.  The node it
    returns has the kind and the text of the first token of the first
    expression; its left child is the node of the assignment and its right
    child the tree of the second expression.  The tree of the first
    expression is not a child of the node. *)
Theorem conditional_consumes_its_tokens (T : M unit) (fuel : nat)
  (s s' : State) (n : Node) :
  Rules.parseConditional T fuel s = Ok n s' ->
  exists (t_open : Token) (l : Node) (t_equal : Token) (r : Node)
         (t_close t_open' t_name t_assign : Token) (rhs : Node)
         (t_semi t_close' first : Token),
    type (currentToken s) = TOKEN_IF
    /\ type t_open = TOKEN_LBRACE /\ type t_equal = TOKEN_EQUAL
    /\ type t_close = TOKEN_RBRACE /\ type t_open' = TOKEN_LBRACE
    /\ type t_name = TOKEN_IDENTIFIER /\ type t_assign = TOKEN_ASSIGN
    /\ type t_semi = TOKEN_SEMICOLON /\ type t_close' = TOKEN_RBRACE
    /\ well_formed l = true /\ well_formed r = true
    /\ well_formed rhs = true
    /\ hd_error (inorder l) = Some first
    /\ n = mkNode (type first)
                  (Some (mkNode TOKEN_IDENTIFIER None (Some rhs) (text t_name)))
                  (Some r) (text first)
    /\ consumed T (size l + size r + size rhs + 9) s
       = Some (currentToken s :: t_open :: inorder l
               ++ t_equal :: inorder r
               ++ t_close :: t_open' :: t_name :: t_assign :: inorder rhs
               ++ [t_semi; t_close'], s').
Proof. apply parseConditional_consumed. Qed.

Lemma conditional_consumes_its_tokens_witness :
  let s := mkState (mkToken TOKEN_IF "") " { a + 1 == b } { x = 2; }" [] in
  let s' := mkState (mkToken TOKEN_EOF "") "" [] in
  Rules.parseConditional Tokenizer.nextToken 1 s
  = Ok (mkNode TOKEN_IDENTIFIER
          (Some (mkNode TOKEN_IDENTIFIER None (Some (leaf TOKEN_NUMBER "2")) "x"))
          (Some (leaf TOKEN_IDENTIFIER "b")) "a") s'
  /\ exists (t_open : Token) (l : Node) (t_equal : Token) (r : Node)
            (t_close t_open' t_name t_assign : Token) (rhs : Node)
            (t_semi t_close' first : Token),
       type (currentToken s) = TOKEN_IF
       /\ type t_open = TOKEN_LBRACE /\ type t_equal = TOKEN_EQUAL
       /\ type t_close = TOKEN_RBRACE /\ type t_open' = TOKEN_LBRACE
       /\ type t_name = TOKEN_IDENTIFIER /\ type t_assign = TOKEN_ASSIGN
       /\ type t_semi = TOKEN_SEMICOLON /\ type t_close' = TOKEN_RBRACE
       /\ well_formed l = true /\ well_formed r = true
       /\ well_formed rhs = true
       /\ hd_error (inorder l) = Some first
       /\ mkNode TOKEN_IDENTIFIER
            (Some (mkNode TOKEN_IDENTIFIER None (Some (leaf TOKEN_NUMBER "2")) "x"))
            (Some (leaf TOKEN_IDENTIFIER "b")) "a"
          = mkNode (type first)
              (Some (mkNode TOKEN_IDENTIFIER None (Some rhs) (text t_name)))
              (Some r) (text first)
       /\ consumed Tokenizer.nextToken (size l + size r + size rhs + 9) s
          = Some (currentToken s :: t_open :: inorder l
                  ++ t_equal :: inorder r
                  ++ t_close :: t_open' :: t_name :: t_assign :: inorder rhs
                  ++ [t_semi; t_close'], s').
Proof.
  cbv zeta. split; [reflexivity|].
  apply (conditional_consumes_its_tokens Tokenizer.nextToken 1
           (mkState (mkToken TOKEN_IF "") " { a + 1 == b } { x = 2; }" [])
           (mkState (mkToken TOKEN_EOF "") "" [])).
  reflexivity.
Defined.

(** X14: the rules print on errors only.  With a tokenizer that prints
    nothing, a call of [match] or of a grammar rule that returns has printed
    nothing. *)
Theorem rules_print_nothing_on_success (T : M unit) :
  quiet T ->
  (forall k, quiet (Rules.match_ T k))
  /\ quiet (Rules.parseFactor T)
  /\ (forall fuel, quiet (Rules.parseExpression T fuel))
  /\ (forall fuel, quiet (Rules.parseAssignment T fuel))
  /\ quiet (Rules.parseDeclaration T)
  /\ (forall fuel, quiet (Rules.parseConditional T fuel)).
Proof.
  intros H.
  split; [apply quiet_match; exact H|].
  split; [apply quiet_parseFactor; exact H|].
  split; [apply quiet_parseExpression; exact H|].
  split; [apply quiet_parseAssignment; exact H|].
  split; [apply quiet_parseDeclaration; exact H|].
  apply quiet_parseConditional; exact H.
Qed.

Lemma rules_print_nothing_on_success_witness :
  let s := mkState (mkToken TOKEN_IDENTIFIER "x") " = 1 + y; }" ["before"] in
  let s' := mkState (mkToken TOKEN_RBRACE "") "" ["before"] in
  Rules.parseAssignment Tokenizer.nextToken 1 s
  = Ok (mkNode TOKEN_IDENTIFIER None
          (Some (binary TOKEN_PLUS (leaf TOKEN_NUMBER "1")
                                   (leaf TOKEN_IDENTIFIER "y"))) "x") s'
  /\ stdout s' = stdout s.
Proof.
  cbv zeta. split; [reflexivity|].
  apply (proj1 (proj2 (proj2 (proj2
           (rules_print_nothing_on_success Tokenizer.nextToken
              quiet_nextToken)))) 1
           (mkState (mkToken TOKEN_IDENTIFIER "x") " = 1 + y; }" ["before"])
           (mkNode TOKEN_IDENTIFIER None
              (Some (binary TOKEN_PLUS (leaf TOKEN_NUMBER "1")
                                       (leaf TOKEN_IDENTIFIER "y"))) "x")).
  reflexivity.
Defined.

(** X15: a token that starts no statement.  At any turn of the loop of
    [parseProgram], when the current token is neither [int], [if], an
    identifier nor the end of the input: the dispatch takes no branch, so it
    returns with [stmt] unassigned and the state as it was (nothing is
    printed, the tokenizer is not called, [exit] is not called), and the
    [printf] that follows reads [stmt->value] of the indeterminate pointer. *)
Theorem unrecognized_statement_start (T : M unit) (fuel_e fuel : nat)
  (s : State) :
  starts_statement (type (currentToken s)) = false ->
  type (currentToken s) <> TOKEN_EOF ->
  Rules.statement T fuel_e s = Ok None s
  /\ (forall s', Rules.report None s' = Undefined)
  /\ Rules.parseProgram_loop T fuel_e (S fuel) s = Undefined.
Proof.
  intros Hs He. split; [|split].
  - unfold starts_statement in Hs.
    apply orb_false_iff in Hs. destruct Hs as [Hs H3].
    apply orb_false_iff in Hs. destruct Hs as [H1 H2].
    unfold Rules.statement. rewrite H1, H2, H3. reflexivity.
  - reflexivity.
  - apply parseProgram_loop_unassigned; assumption.
Qed.

Lemma unrecognized_statement_start_witness :
  let s := mkState (mkToken TOKEN_NUMBER "5") ";"
             [parsed_statement_message "x"] in
  (Rules.statement Tokenizer.nextToken 2 s = Ok None s
   /\ (forall s', Rules.report None s' = Undefined)
   /\ Rules.parseProgram_loop Tokenizer.nextToken 2 1 s = Undefined)
  /\ Rules.parseProgram Tokenizer.nextToken 2 (initial_state "int x; 5;")
     = Undefined
  /\ Rules.parseProgram_loop getNextToken 1 1
       (mkState (mkToken TOKEN_SEMICOLON "") "" []) = Undefined.
Proof.
  cbv zeta. split; [|split; [reflexivity|]].
  - apply (unrecognized_statement_start Tokenizer.nextToken 2 0
             (mkState (mkToken TOKEN_NUMBER "5") ";"
                [parsed_statement_message "x"]));
      [reflexivity | discriminate].
  - refine (proj2 (proj2
              (unrecognized_statement_start getNextToken 1 0
                 (mkState (mkToken TOKEN_SEMICOLON "") "" [])
                 eq_refl _))).
    discriminate.
Defined.

(** X16: [parseProgram] reads to the end of the input.  Whatever the
    tokenizer, the state in which [parseProgram] returns has [TOKEN_EOF] as
    current token. *)
Theorem parseProgram_ends_at_eof (T : M unit) (fuel : nat) (s s' : State) :
  Rules.parseProgram T fuel s = Ok tt s' ->
  type (currentToken s') = TOKEN_EOF.
Proof.
  intros H. apply bind_inv in H. destruct H as ([] & s0 & _ & H).
  exact (parseProgram_loop_ends_at_eof _ _ _ _ _ H).
Qed.

Lemma parseProgram_ends_at_eof_witness :
  let s' := mkState (mkToken TOKEN_EOF "") ""
              [parsed_statement_message "n"; parsed_statement_message "n"] in
  Rules.parseProgram Tokenizer.nextToken 2 (initial_state "int n; n = n - 1;")
  = Ok tt s'
  /\ type (currentToken s') = TOKEN_EOF.
Proof.
  cbv zeta. split; [reflexivity|].
  apply (parseProgram_ends_at_eof Tokenizer.nextToken 2
           (initial_state "int n; n = n - 1;")).
  reflexivity.
Defined.

(** ** One diagnostic, and the last line *)

Lemma fails_once_ret (T : M unit) {A} (a : A) : fails_once T (ret a).
Proof. intros s status out H. discriminate H. Qed.

Lemma fails_once_bind (T : M unit) {A B} (m : M A) (k : A -> M B) :
  quiet m -> fails_once T m -> (forall a, fails_once T (k a)) ->
  fails_once T (bind m k).
Proof.
  intros Hq Hm Hk s status out H. unfold bind in H.
  destruct (m s) as [a s1| st o | |] eqn:E; try discriminate.
  - apply Hk in H. apply Hq in E. rewrite <- E. exact H.
  - inversion H; subst. exact (Hm _ _ _ E).
Qed.

Section OneDiagnostic.

Variable T : M unit.
Hypothesis T_quiet : quiet T.

Lemma fails_once_match (k : TokenType) : fails_once T (Rules.match_ T k).
Proof.
  intros s status out. unfold Rules.match_.
  destruct (kind_eqb (type (currentToken s)) k).
  - intros H. right. exists s. split; [reflexivity | exact H].
  - intros H. inversion H; subst. left. split; [reflexivity|].
    eexists. split; [reflexivity|]. right. eauto.
Qed.

Lemma fails_once_parseFactor : fails_once T (Rules.parseFactor T).
Proof.
  intros s status out. unfold Rules.parseFactor.
  destruct (kind_eqb (type (currentToken s)) TOKEN_NUMBER
            || kind_eqb (type (currentToken s)) TOKEN_IDENTIFIER).
  - apply fails_once_bind;
      [apply quiet_match; exact T_quiet | apply fails_once_match
      | intros ?; apply fails_once_ret].
  - intros H. inversion H; subst. left. split; [reflexivity|].
    eexists. split; [reflexivity|]. left. reflexivity.
Qed.

Lemma fails_once_parseExpression_loop (fuel : nat) :
  forall node, fails_once T (Rules.parseExpression_loop T fuel node).
Proof.
  induction fuel as [|fuel IH]; intros node s status out;
    cbn [Rules.parseExpression_loop];
    destruct (kind_eqb (type (currentToken s)) TOKEN_PLUS
              || kind_eqb (type (currentToken s)) TOKEN_MINUS);
    try discriminate.
  apply fails_once_bind;
    [apply quiet_match; exact T_quiet | apply fails_once_match |].
  intros _. apply fails_once_bind;
    [apply quiet_parseFactor; exact T_quiet | apply fails_once_parseFactor |].
  intros rhs. apply IH.
Qed.

Lemma fails_once_parseExpression (fuel : nat) :
  fails_once T (Rules.parseExpression T fuel).
Proof.
  apply fails_once_bind;
    [apply quiet_parseFactor; exact T_quiet | apply fails_once_parseFactor |].
  intros node. apply fails_once_parseExpression_loop.
Qed.

Lemma fails_once_parseAssignment (fuel : nat) :
  fails_once T (Rules.parseAssignment T fuel).
Proof.
  intros s. unfold Rules.parseAssignment.
  apply fails_once_bind;
    [apply quiet_match; exact T_quiet | apply fails_once_match |].
  intros _. apply fails_once_bind;
    [apply quiet_match; exact T_quiet | apply fails_once_match |].
  intros _. apply fails_once_bind;
    [apply quiet_parseExpression; exact T_quiet
    | apply fails_once_parseExpression |].
  intros rhs. apply fails_once_bind;
    [apply quiet_match; exact T_quiet | apply fails_once_match |].
  intros _. apply fails_once_ret.
Qed.

Lemma fails_once_parseDeclaration : fails_once T (Rules.parseDeclaration T).
Proof.
  unfold Rules.parseDeclaration.
  apply fails_once_bind;
    [apply quiet_match; exact T_quiet | apply fails_once_match |].
  intros _ s. apply fails_once_bind;
    [apply quiet_match; exact T_quiet | apply fails_once_match |].
  intros _. apply fails_once_bind;
    [apply quiet_match; exact T_quiet | apply fails_once_match |].
  intros _. apply fails_once_ret.
Qed.

Lemma fails_once_parseConditional (fuel : nat) :
  fails_once T (Rules.parseConditional T fuel).
Proof.
  unfold Rules.parseConditional.
  apply fails_once_bind;
    [apply quiet_match; exact T_quiet | apply fails_once_match |].
  intros _. apply fails_once_bind;
    [apply quiet_match; exact T_quiet | apply fails_once_match |].
  intros _ s. apply fails_once_bind;
    [apply quiet_parseExpression; exact T_quiet
    | apply fails_once_parseExpression |].
  intros l. apply fails_once_bind;
    [apply quiet_match; exact T_quiet | apply fails_once_match |].
  intros _. apply fails_once_bind;
    [apply quiet_parseExpression; exact T_quiet
    | apply fails_once_parseExpression |].
  intros r. apply fails_once_bind;
    [apply quiet_match; exact T_quiet | apply fails_once_match |].
  intros _. apply fails_once_bind;
    [apply quiet_match; exact T_quiet | apply fails_once_match |].
  intros _. apply fails_once_bind;
    [apply quiet_parseAssignment; exact T_quiet
    | apply fails_once_parseAssignment |].
  intros body. apply fails_once_bind;
    [apply quiet_match; exact T_quiet | apply fails_once_match |].
  intros _. apply fails_once_ret.
Qed.

Lemma fails_once_statement (fuel : nat) :
  fails_once T (Rules.statement T fuel).
Proof.
  intros s. unfold Rules.statement.
  destruct (kind_eqb (type (currentToken s)) TOKEN_INT).
  { apply fails_once_bind;
      [apply quiet_parseDeclaration; exact T_quiet
      | apply fails_once_parseDeclaration | intros ?; apply fails_once_ret]. }
  destruct (kind_eqb (type (currentToken s)) TOKEN_IF).
  { apply fails_once_bind;
      [apply quiet_parseConditional; exact T_quiet
      | apply fails_once_parseConditional | intros ?; apply fails_once_ret]. }
  destruct (kind_eqb (type (currentToken s)) TOKEN_IDENTIFIER).
  { apply fails_once_bind;
      [apply quiet_parseAssignment; exact T_quiet
      | apply fails_once_parseAssignment | intros ?; apply fails_once_ret]. }
  intros status out H. discriminate H.
Qed.

Lemma parseProgram_loop_fails_once (fuel_e fuel : nat) :
  forall s status out,
    Rules.parseProgram_loop T fuel_e fuel s = Exit status out ->
    (status = 1%Z
     /\ exists line,
          out = (stdout s
                 ++ map (fun n => parsed_statement_message (value n))
                        (parsed_before_stop T fuel_e fuel s))
                ++ [line]
          /\ error_line line)
    \/ (exists s_t,
          stdout s_t
          = stdout s
            ++ map (fun n => parsed_statement_message (value n))
                   (parsed_before_stop T fuel_e fuel s)
          /\ T s_t = Exit status out).
Proof.
  induction fuel as [|fuel IH]; intros s status out;
    cbn [Rules.parseProgram_loop parsed_before_stop];
    destruct (negb (kind_eqb (type (currentToken s)) TOKEN_EOF));
    try discriminate.
  unfold bind.
  destruct (Rules.statement T fuel_e s) as [stmt s1| st o | |] eqn:Es;
    try discriminate.
  - destruct stmt as [n|]; [|discriminate].
    cbn [Rules.report]. unfold printf. intros H. apply IH in H.
    apply quiet_statement in Es; [|exact T_quiet].
    cbn [stdout map] in *.
    destruct H as [(Hst & line & Hout & Hl) | (s_t & Hs_t & HT)];
      [left | right].
    + split; [exact Hst|]. exists line. split; [|exact Hl].
      rewrite Hout, Es, <- !app_assoc. reflexivity.
    + exists s_t. split; [|exact HT].
      rewrite Hs_t, Es, <- !app_assoc. reflexivity.
  - intros H. inversion H; subst. cbn [map]. rewrite app_nil_r.
    exact (fails_once_statement _ _ _ _ Es).
Qed.

End OneDiagnostic.

(** X17: one diagnostic, and nothing after it.  With a tokenizer that prints
    nothing when it returns, the output of a run of [parseProgram] that ends
    the process begins with the earlier output followed by one line "Parsed
    statement with root: " and the value of the root for every statement
    parsed before the failure, in the order of the source.  Then either the
    status is 1 and one line of syntax error follows, which is the last line,
    or it is the tokenizer that ended the process, called after these
    lines. *)
Theorem parseProgram_fails_once (T : M unit) (fuel : nat) (s : State)
  (status : Z) (out : list string) :
  quiet T ->
  Rules.parseProgram T fuel s = Exit status out ->
  (status = 1%Z
   /\ exists line,
        out = (stdout s
               ++ map (fun n => parsed_statement_message (value n))
                      (parsed_by_program T fuel s))
              ++ [line]
        /\ error_line line)
  \/ (exists s_t,
        stdout s_t
        = stdout s
          ++ map (fun n => parsed_statement_message (value n))
                 (parsed_by_program T fuel s)
        /\ T s_t = Exit status out).
Proof.
  intros Hq H. unfold Rules.parseProgram, bind in H.
  unfold parsed_by_program.
  destruct (T s) as [u s0| st o | |] eqn:E; try discriminate.
  - apply (parseProgram_loop_fails_once T Hq) in H.
    apply Hq in E. rewrite <- E. exact H.
  - inversion H; subst. right. exists s. cbn [map].
    rewrite app_nil_r. split; [reflexivity | exact E].
Qed.

Lemma parseProgram_fails_once_witness :
  let s := mkState (mkToken TOKEN_INT "") "int x; y = 1; z = ;" ["earlier"] in
  let out := ["earlier"; parsed_statement_message "x";
              parsed_statement_message "y"; factor_error_message] in
  Rules.parseProgram Tokenizer.nextToken 3 s = Exit 1 out
  /\ parsed_by_program Tokenizer.nextToken 3 s
     = [leaf TOKEN_IDENTIFIER "x";
        mkNode TOKEN_IDENTIFIER None (Some (leaf TOKEN_NUMBER "1")) "y"]
  /\ ((1%Z = 1%Z
       /\ exists line,
            out = (stdout s
                   ++ map (fun n => parsed_statement_message (value n))
                          (parsed_by_program Tokenizer.nextToken 3 s))
                  ++ [line]
            /\ error_line line)
      \/ (exists s_t,
            stdout s_t
            = stdout s
              ++ map (fun n => parsed_statement_message (value n))
                     (parsed_by_program Tokenizer.nextToken 3 s)
            /\ Tokenizer.nextToken s_t = Exit 1 out)).
Proof.
  cbv zeta. split; [reflexivity|]. split; [reflexivity|].
  apply (parseProgram_fails_once Tokenizer.nextToken 3
           (mkState (mkToken TOKEN_INT "") "int x; y = 1; z = ;" ["earlier"])
           1 _ quiet_nextToken).
  reflexivity.
Defined.

(** X19: what a run of [parseProgram] that returns has printed.  With a
    tokenizer that prints nothing, the output is the earlier output followed
    by one line "Parsed statement with root: " and the value of the root for
    every statement the run parsed, in the order of the source; the value
    returned is [tt], and the trees are in it no more. *)
Theorem parseProgram_prints_statement_roots (T : M unit) (fuel : nat)
  (s s' : State) :
  quiet T ->
  Rules.parseProgram T fuel s = Ok tt s' ->
  exists roots : list Node,
    (T ;;; parsed_statements T fuel fuel) s = Ok roots s'
    /\ stdout s'
       = stdout s ++ map (fun n => parsed_statement_message (value n)) roots.
Proof.
  intros HT H. unfold Rules.parseProgram in H.
  apply bind_inv in H. destruct H as ([] & s0 & H0 & H).
  apply (parseProgram_loop_prints T HT) in H.
  destruct H as (roots & Hp & Hout). exists roots. split.
  - unfold bind. rewrite H0. exact Hp.
  - apply HT in H0. rewrite Hout, H0. reflexivity.
Qed.

Lemma parseProgram_prints_statement_roots_witness :
  exists roots : list Node,
    (Tokenizer.nextToken ;;; parsed_statements Tokenizer.nextToken 2 2)
      (initial_state "int x; y = 1 + 2;")
    = Ok roots
         (mkState (mkToken TOKEN_EOF "") ""
            [parsed_statement_message "x"; parsed_statement_message "y"])
    /\ stdout (mkState (mkToken TOKEN_EOF "") ""
                 [parsed_statement_message "x"; parsed_statement_message "y"])
       = stdout (initial_state "int x; y = 1 + 2;")
         ++ map (fun n => parsed_statement_message (value n)) roots.
Proof.
  apply (parseProgram_prints_statement_roots Tokenizer.nextToken 2
           (initial_state "int x; y = 1 + 2;")
           (mkState (mkToken TOKEN_EOF "") ""
              [parsed_statement_message "x"; parsed_statement_message "y"])
           quiet_nextToken).
  reflexivity.
Defined.

(** X18: a declaration without a name.  When the token after [int] is not an
    identifier, [parseDeclaration] returns no node: it prints "Syntax error:
    expected token 1 but got A", with the number of the kind of that token,
    and ends the process with status 1. *)
Theorem declaration_needs_identifier (T : M unit) (s s1 : State) :
  type (currentToken s) = TOKEN_INT ->
  T s = Ok tt s1 ->
  type (currentToken s1) <> TOKEN_IDENTIFIER ->
  Rules.parseDeclaration T s
  = Exit 1 (stdout s1
            ++ [syntax_error_message TOKEN_IDENTIFIER (type (currentToken s1))]).
Proof.
  intros K HT Hk. unfold Rules.parseDeclaration, bind.
  rewrite (Rules_match_same T _ s K), HT.
  rewrite (Rules_match_mismatch T _ s1 Hk). reflexivity.
Qed.

Lemma declaration_needs_identifier_witness :
  Rules.parseDeclaration Tokenizer.nextToken
    (mkState (mkToken TOKEN_INT "") " 5;" [])
  = Exit 1 [("Syntax error: expected token 1 but got 2" ++ newline)%string].
Proof.
  apply (declaration_needs_identifier Tokenizer.nextToken
           (mkState (mkToken TOKEN_INT "") " 5;" [])
           (mkState (mkToken TOKEN_NUMBER "5") ";" []));
    [reflexivity | reflexivity | discriminate].
Defined.
